(** * Verification of the conversation-tree canvas (akeshwani2/tree)

    Shallow embedding of the client component [src/unnamed/part_001]
    (tree model, mutations, layout effect, streaming client) and of the
    two [/api/chat] route handlers [src/src/app/api/chat/route.ts].

    Modelling choices:
    - a JS string is its list of UTF-16 code units ([list N]); [js]
      lifts an ASCII literal into that representation;
    - a JS number used as a canvas coordinate or height is an exact
      canonical rational ([Qc]), so [===] is Leibniz equality; IEEE
      rounding is not modelled. *)

From Stdlib Require Import List Bool ZArith NArith String Ascii Lia Permutation.
From Stdlib Require Import QArith Qcanon.
Import ListNotations.

Open Scope N_scope.
Open Scope list_scope.

(** ** JS strings *)

Definition jstr := list N.

Fixpoint js (s : string) : jstr :=
  match s with
  | EmptyString => []
  | String a s' => N_of_ascii a :: js s'
  end.

(** Code units removed by [String.prototype.trim]: WhiteSpace and
    LineTerminator of ECMA-262. *)
Definition is_js_ws (c : N) : bool :=
  (c =? 9) || (c =? 10) || (c =? 11) || (c =? 12) || (c =? 13) || (c =? 32)
  || (c =? 160) || (c =? 5760) || ((8192 <=? c) && (c <=? 8202))
  || (c =? 8232) || (c =? 8233) || (c =? 8239) || (c =? 8287)
  || (c =? 12288) || (c =? 65279).

Fixpoint drop_ws (s : jstr) : jstr :=
  match s with
  | [] => []
  | c :: s' => if is_js_ws c then drop_ws s' else s
  end.

(** [s.trim()] *)
Definition trim (s : jstr) : jstr := rev (drop_ws (rev (drop_ws s))).

(** [s.split(/\r?\n/)]: a separator is ["\r\n"] or ["\n"]; [cur] holds
    the current piece reversed. *)
Fixpoint split_go (cur : jstr) (s : jstr) : list jstr :=
  match s with
  | [] => [rev cur]
  | c :: rest =>
      if c =? 10 then rev cur :: split_go [] rest
      else if c =? 13 then
        match rest with
        | d :: rest' =>
            if d =? 10 then rev cur :: split_go [] rest'
            else split_go (c :: cur) rest
        | [] => split_go (c :: cur) rest
        end
      else split_go (c :: cur) rest
  end.

Definition split_lines (s : jstr) : list jstr := split_go [] s.

(** [.filter(Boolean)] on strings: drops the empty string only. *)
Definition truthy_str (s : jstr) : bool :=
  match s with [] => false | _ => true end.

(** [xs.join(sep)] *)
Fixpoint join (sep : jstr) (xs : list jstr) : jstr :=
  match xs with
  | [] => []
  | [a] => a
  | a :: rest => a ++ sep ++ join sep rest
  end.

Definition ellipsis : N := 8230.   (* "…" U+2026 *)

Definition maxChars : nat := 240.

(** [truncateSelection] (part_001, lines 40-47). *)
Definition truncateSelection (text : jstr) : jstr :=
  let lines := filter truthy_str (split_lines (trim text)) in
  let firstTwo := join (js " ") (firstn 2 lines) in
  if Nat.ltb maxChars (List.length firstTwo)
  then firstn maxChars firstTwo ++ [ellipsis]
  else firstTwo.

Example truncate_spec_example :
  truncateSelection (js "Line one.
Line two.
Line three.") = js "Line one. Line two.".
Proof. vm_compute. reflexivity. Qed.

(** The lines [truncateSelection] keeps, before taking the first two. *)
Definition lines_of (text : jstr) : list jstr :=
  filter truthy_str (split_lines (trim text)).


(** ** Tree model (part_001, lines 23-38) *)

Inductive role := user | assistant.

Definition role_eqb (a b : role) : bool :=
  match a, b with
  | user, user | assistant, assistant => true
  | _, _ => false
  end.

Record ChatMessage := mkMsg { role_of : role; content : jstr }.

(** [manualPosition?] and [isThinking?] are only read for truthiness;
    an absent field is [false]. *)
Inductive ChatNode := mkNode {
  id : Z;
  quotedText : option jstr;
  children : list ChatNode;
  x : Qc;
  y : Qc;
  height : Qc;
  manualPosition : bool;
  conversation : list ChatMessage;
  isThinking : bool
}.

Definition Tree := list ChatNode.

(** Object spreads [{ ...node, f: v }]. *)
Definition with_children (n : ChatNode) (cs : list ChatNode) : ChatNode :=
  mkNode (id n) (quotedText n) cs (x n) (y n) (height n)
         (manualPosition n) (conversation n) (isThinking n).

Definition with_pos (n : ChatNode) (nx ny : Qc) : ChatNode :=
  mkNode (id n) (quotedText n) (children n) nx ny (height n)
         (manualPosition n) (conversation n) (isThinking n).

Definition with_height (n : ChatNode) (h : Qc) : ChatNode :=
  mkNode (id n) (quotedText n) (children n) (x n) (y n) h
         (manualPosition n) (conversation n) (isThinking n).

Definition with_conv (n : ChatNode) (conv : list ChatMessage) (th : bool)
  : ChatNode :=
  mkNode (id n) (quotedText n) (children n) (x n) (y n) (height n)
         (manualPosition n) conv th.

(** Canvas numbers. *)
Definition qc (z : Z) : Qc := Q2Qc (inject_Z z).

(** Initial state of [chatTree] (lines 466-476). *)
Definition initialTree : Tree :=
  [mkNode 1 None [] (qc 725) (qc 500) (qc 200) false [] false].

(** ** Tree mutations *)

(** [addChild] of [handleCreateFromSelection] / [handleBranch]
    (lines 559-569 and 589-599). *)
Fixpoint addChild_node (src : Z) (newNode : ChatNode) (n : ChatNode)
  : ChatNode :=
  match n with
  | mkNode i q cs nx ny h m conv th =>
      if Z.eqb i src then mkNode i q (cs ++ [newNode]) nx ny h m conv th
      else match cs with
           | [] => n
           | _ :: _ =>
               mkNode i q (map (addChild_node src newNode) cs) nx ny h m conv th
           end
  end.

Definition addChild (src : Z) (newNode : ChatNode) (nodes : Tree) : Tree :=
  map (addChild_node src newNode) nodes.

(** New nodes (lines 547-556, 577-586); [newId] is [Date.now()]. *)
Definition newSelectionNode (newId : Z) (text : jstr) : ChatNode :=
  mkNode newId (Some (truncateSelection text)) [] (qc 0) (qc 0) (qc 150)
         false [] false.

Definition newBranchNode (newId : Z) : ChatNode :=
  mkNode newId None [] (qc 0) (qc 0) (qc 150) false [] false.

Definition createFromSelection (newId src : Z) (text : jstr) (t : Tree)
  : Tree := addChild src (newSelectionNode newId text) t.

Definition branch (newId src : Z) (t : Tree) : Tree :=
  addChild src (newBranchNode newId) t.

(** [removeNode] of [handleDelete] (lines 606-612):
    [nodes.filter(n => n.id !== chatId).map(n => ({...n,
    children: removeNode(n.children)}))]; the filter and the map are
    fused into one pass over the list. *)
Fixpoint removeNode_node (chatId : Z) (n : ChatNode) : ChatNode :=
  match n with
  | mkNode i q cs nx ny h m conv th =>
      let fix removeNode (nodes : list ChatNode) : list ChatNode :=
        match nodes with
        | [] => []
        | c :: rest =>
            if Z.eqb (id c) chatId then removeNode rest
            else removeNode_node chatId c :: removeNode rest
        end in
      mkNode i q (removeNode cs) nx ny h m conv th
  end.

Fixpoint removeNode (chatId : Z) (nodes : list ChatNode) : list ChatNode :=
  match nodes with
  | [] => []
  | c :: rest =>
      if Z.eqb (id c) chatId then removeNode chatId rest
      else removeNode_node chatId c :: removeNode chatId rest
  end.

Definition deleteNode (chatId : Z) (t : Tree) : Tree := removeNode chatId t.

(** [moveChildren] (lines 625-632). *)
Fixpoint moveChild (dx dy : Qc) (child : ChatNode) : ChatNode :=
  match child with
  | mkNode i q ccs cx cy h m conv th =>
      mkNode i q (map (moveChild dx dy) ccs) (cx + dx)%Qc (cy + dy)%Qc
             h m conv th
  end.

Definition moveChildren (dx dy : Qc) (cs : list ChatNode) : list ChatNode :=
  map (moveChild dx dy) cs.

(** [updatePosition] of [handleChatPositionChange] (lines 620-643). *)
Fixpoint updatePosition_node (chatId : Z) (px py : Qc) (n : ChatNode)
  : ChatNode :=
  match n with
  | mkNode i q cs nx ny h m conv th =>
      if Z.eqb i chatId then
        let dx := (px - nx)%Qc in
        let dy := (py - ny)%Qc in
        mkNode i q (map (moveChild dx dy) cs) px py h true conv th
      else mkNode i q (map (updatePosition_node chatId px py) cs)
                  nx ny h m conv th
  end.

Definition updatePosition (chatId : Z) (px py : Qc) (t : Tree) : Tree :=
  map (updatePosition_node chatId px py) t.

(** [flatten] of [flatChats] (lines 503-521): every node without its
    children, in pre-order. *)
Record FlatNode := mkFlat {
  f_id : Z; f_x : Qc; f_y : Qc; f_height : Qc; f_quotedText : option jstr;
  f_conversation : list ChatMessage; f_isThinking : bool
}.

Definition flat (n : ChatNode) : FlatNode :=
  mkFlat (id n) (x n) (y n) (height n) (quotedText n) (conversation n)
         (isThinking n).

Fixpoint flatten_node (n : ChatNode) : list FlatNode :=
  match n with
  | mkNode _ _ cs _ _ _ _ _ _ => flat n :: List.concat (map flatten_node cs)
  end.

(** [nodes.reduce((acc, node) => acc.concat(flat node,
    flatten(node.children)), [])] *)
Definition flatten (nodes : list ChatNode) : list FlatNode :=
  List.concat (map flatten_node nodes).

Definition ids (t : Tree) : list Z := map f_id (flatten t).

(** Every node of a forest, in the pre-order of [flatten]. *)
Fixpoint all_nodes_node (n : ChatNode) : list ChatNode :=
  match n with
  | mkNode _ _ cs _ _ _ _ _ _ => n :: List.concat (map all_nodes_node cs)
  end.

Definition all_nodes (t : Tree) : list ChatNode :=
  List.concat (map all_nodes_node t).

(** Induction over the nested [ChatNode] type. *)
Section ChatNodeInd.
Variable P : ChatNode -> Prop.
Hypothesis Hnode : forall i q cs nx ny h m conv th,
    Forall P cs -> P (mkNode i q cs nx ny h m conv th).

Fixpoint ChatNode_ind' (n : ChatNode) : P n :=
    match n with
    | mkNode i q cs nx ny h m conv th =>
        Hnode i q cs nx ny h m conv th
          ((fix go (l : list ChatNode) : Forall P l :=
              match l with
              | [] => Forall_nil P
              | c :: l' => Forall_cons c (ChatNode_ind' c) (go l')
              end) cs)
    end.
End ChatNodeInd.

(** The node [sub] of the forest [l] splits [flatten l] around its own
    pre-order block, and [removeNode (id sub)] keeps exactly the rest. *)
Definition splits_at_subtree (l : list ChatNode) : Prop :=
  NoDup (map id (all_nodes l)) ->
  forall sub, In sub (all_nodes l) ->
  exists pre post,
    flatten l = pre ++ flatten_node sub ++ post /\
    flatten (removeNode (id sub) l) = pre ++ post.

(** A sample tree: root 1 with children 2 (itself with children 3 and
    4) and 5. *)
Definition leaf (i : Z) : ChatNode :=
  mkNode i None [] (qc 0) (qc 0) (qc 150) false [] false.

Definition sampleSub : ChatNode :=
  mkNode 2 None [leaf 3; leaf 4] (qc 0) (qc 0) (qc 150) false [] false.

Definition sampleTree : Tree :=
  [mkNode 1 None [sampleSub; leaf 5] (qc 725) (qc 500) (qc 200) false [] false].

(** ** Streaming client updates of [handleNewMessage] (lines 650-782) *)

(** [appendMessage] (lines 652-666). *)
Fixpoint appendMessage (chatId : Z) (message : jstr) (n : ChatNode)
  : ChatNode :=
  match n with
  | mkNode i q cs nx ny h m conv th =>
      if Z.eqb i chatId
      then mkNode i q cs nx ny h m (conv ++ [mkMsg user message]) true
      else mkNode i q (map (appendMessage chatId message) cs) nx ny h m conv th
  end.

(** [setErrorState] (lines 712-722). *)
Fixpoint setErrorState (chatId : Z) (n : ChatNode) : ChatNode :=
  match n with
  | mkNode i q cs nx ny h m conv th =>
      if Z.eqb i chatId then mkNode i q cs nx ny h m conv false
      else mkNode i q (map (setErrorState chatId) cs) nx ny h m conv th
  end.

(** [addAssistantPlaceholder] (lines 734-751). *)
Fixpoint addAssistantPlaceholder (chatId : Z) (n : ChatNode) : ChatNode :=
  match n with
  | mkNode i q cs nx ny h m conv th =>
      if Z.eqb i chatId
      then mkNode i q cs nx ny h m (conv ++ [mkMsg assistant []]) false
      else mkNode i q (map (addAssistantPlaceholder chatId) cs)
                  nx ny h m conv th
  end.

(** [node.conversation[node.conversation.length - 1]] *)
Fixpoint last_msg (l : list ChatMessage) : option ChatMessage :=
  match l with
  | [] => None
  | [a] => Some a
  | _ :: l' => last_msg l'
  end.

(** [appendResponseChunk] (lines 757-781): when the node matches and
    its last message is an assistant message, the chunk is appended to
    it and the children are left alone; otherwise the update recurses
    into the children. *)
Fixpoint appendResponseChunk (chatId : Z) (chunkValue : jstr) (n : ChatNode)
  : ChatNode :=
  match n with
  | mkNode i q cs nx ny h m conv th =>
      let recurse :=
        mkNode i q (map (appendResponseChunk chatId chunkValue) cs)
               nx ny h m conv th in
      if Z.eqb i chatId then
        match last_msg conv with
        | Some lastMessage =>
            if role_eqb (role_of lastMessage) assistant then
              mkNode i q cs nx ny h m
                (removelast conv
                   ++ [mkMsg (role_of lastMessage)
                             (content lastMessage ++ chunkValue)])
                th
            else recurse
        | None => recurse
        end
      else recurse
  end.

(** [decoder.decode(value)]: a chunk read from the body, [None] for the
    final [{ done: true, value: undefined }] read, which decodes to "". *)
Definition decode (value : option jstr) : jstr :=
  match value with Some s => s | None => [] end.

(** The read loop (lines 753-782): one [appendResponseChunk] per read,
    in the order of the reads. *)
Fixpoint readLoop (chatId : Z) (reads : list (option jstr)) (t : Tree)
  : Tree :=
  match reads with
  | [] => t
  | value :: rest =>
      readLoop chatId rest (map (appendResponseChunk chatId (decode value)) t)
  end.

(** A successful [handleNewMessage]: the user message, then the
    placeholder, then the chunks of the body; [reads] ends with the
    final [done] read. *)
Definition sendMessageOk (chatId : Z) (message : jstr)
  (reads : list (option jstr)) (t : Tree) : Tree :=
  let t1 := map (appendMessage chatId message) t in
  let t2 := map (addAssistantPlaceholder chatId) t1 in
  readLoop chatId reads t2.

(** [findNode] (lines 683-690). *)
Fixpoint findNode_node (chatId : Z) (n : ChatNode) : option ChatNode :=
  match n with
  | mkNode i q cs _ _ _ _ _ _ =>
      if Z.eqb i chatId then Some n
      else (fix go (l : list ChatNode) : option ChatNode :=
              match l with
              | [] => None
              | c :: l' =>
                  match findNode_node chatId c with
                  | Some f => Some f
                  | None => go l'
                  end
              end) cs
  end.

Fixpoint findNode (nodes : list ChatNode) (chatId : Z) : option ChatNode :=
  match nodes with
  | [] => None
  | c :: l' =>
      match findNode_node chatId c with
      | Some f => Some f
      | None => findNode l' chatId
      end
  end.

(** ** Layout effect (lines 787-894) *)

Open Scope Qc_scope.

Definition CARD_WIDTH : Qc := qc 700.
Definition HORIZONTAL_SPACING : Qc := qc 100.
Definition VERTICAL_SPACING : Qc := qc 80.
Definition two : Qc := qc 2.

(** [a !== b] on canvas numbers. *)
Definition neq (a b : Qc) : bool := negb (Qc_eq_bool a b).

(** [Math.max(a, b)] *)
Definition js_max (a b : Qc) : Qc :=
  match a ?= b with Lt => b | _ => a end.

Definition sum_spaced (gap : Qc) (l : list Qc) : Qc :=
  fold_left (fun acc w => acc + w + gap) l (- gap).

(** [getSubtreeHeight] (lines 846-854). *)
Fixpoint getSubtreeHeight (n : ChatNode) : Qc :=
  match n with
  | mkNode _ _ cs _ _ h _ _ _ =>
      match cs with
      | [] => h
      | _ :: _ => js_max h (sum_spaced VERTICAL_SPACING (map getSubtreeHeight cs))
      end
  end.

(** [getSubtreeWidth] (lines 804-812). *)
Fixpoint getSubtreeWidth (n : ChatNode) : Qc :=
  match n with
  | mkNode _ _ cs _ _ _ _ _ _ =>
      match cs with
      | [] => CARD_WIDTH
      | _ :: _ => sum_spaced HORIZONTAL_SPACING (map getSubtreeWidth cs)
      end
  end.

Inductive layoutModeT := horizontal | vertical.

(** The guarded assignment [if (!child.manualPosition && (child.x !== newX
    || child.y !== newY)) { child.x = newX; child.y = newY;
    hasChanges = true; }]; a root gets no proposal ([None]). *)
Definition place (prop : option (Qc * Qc)) (m : bool) (nx ny : Qc)
  : Qc * Qc * bool :=
  match prop with
  | None => (nx, ny, false)
  | Some (newX, newY) =>
      if negb m && (neq nx newX || neq ny newY) then (newX, newY, true)
      else (nx, ny, false)
  end.

(** The two [positionChildren] functions differ only in where a child
    goes for the running offset and in how the offset advances.
    Horizontal (lines 864-878): [yOffset] starts at
    [node.y + node.height / 2 - totalHeight / 2]; a child goes to
    [(node.x + CARD_WIDTH + HORIZONTAL_SPACING,
      yOffset + childHeight / 2 - child.height / 2)];
    [yOffset += childHeight + VERTICAL_SPACING].
    Vertical (lines 825-839): [xOffset] starts at
    [node.x + CARD_WIDTH / 2 - totalWidth / 2]; a child goes to
    [(xOffset + childWidth / 2 - CARD_WIDTH / 2,
      node.y + node.height + VERTICAL_SPACING)];
    [xOffset += childWidth + HORIZONTAL_SPACING]. *)
Definition startOffset (mode : layoutModeT) (nx ny h : Qc) (cs : list ChatNode)
  : Qc :=
  match mode with
  | horizontal =>
      ny + h / two - sum_spaced VERTICAL_SPACING (map getSubtreeHeight cs) / two
  | vertical =>
      nx + CARD_WIDTH / two
      - sum_spaced HORIZONTAL_SPACING (map getSubtreeWidth cs) / two
  end.

Definition childPos (mode : layoutModeT) (nx ny h off : Qc) (child : ChatNode)
  : Qc * Qc :=
  match mode with
  | horizontal =>
      (nx + CARD_WIDTH + HORIZONTAL_SPACING,
       off + getSubtreeHeight child / two - height child / two)
  | vertical =>
      (off + getSubtreeWidth child / two - CARD_WIDTH / two,
       ny + h + VERTICAL_SPACING)
  end.

Definition offsetStep (mode : layoutModeT) (child : ChatNode) : Qc :=
  match mode with
  | horizontal => getSubtreeHeight child + VERTICAL_SPACING
  | vertical => getSubtreeWidth child + HORIZONTAL_SPACING
  end.

(** [children.forEach((child) => { ...; positionChildren(child);
    offset += ... })], with [rec] the recursive [positionChildren]. *)
Fixpoint placeChildren (rec : option (Qc * Qc) -> ChatNode -> ChatNode * bool)
  (mode : layoutModeT) (nx ny h off : Qc) (l : list ChatNode)
  : list ChatNode * bool :=
  match l with
  | [] => ([], false)
  | child :: l' =>
      let '(child', ch1) := rec (Some (childPos mode nx ny h off child)) child in
      let '(l'', ch2) :=
        placeChildren rec mode nx ny h (off + offsetStep mode child) l' in
      (child' :: l'', ch1 || ch2)
  end.

(** [positionChildren] of [layoutHorizontal] (lines 856-880) and of
    [layoutVertical] (lines 814-841), run on a node after its parent
    proposed its position [prop] (the guarded assignment, done by the
    parent's loop in the source, is done here on entry); returns the
    node and whether [hasChanges] was set. *)
Fixpoint positionChildren (mode : layoutModeT) (prop : option (Qc * Qc))
  (n : ChatNode) : ChatNode * bool :=
  match n with
  | mkNode i q cs nx ny h m conv th =>
      let '(nx', ny', ch0) := place prop m nx ny in
      match cs with
      | [] => (mkNode i q cs nx' ny' h m conv th, ch0)
      | _ :: _ =>
          let '(cs', ch) :=
            placeChildren (positionChildren mode) mode nx' ny' h
              (startOffset mode nx' ny' h cs) cs in
          (mkNode i q cs' nx' ny' h m conv th, ch0 || ch)
      end
  end.

Fixpoint forEachRoot (f : ChatNode -> ChatNode * bool) (nodes : Tree)
  : Tree * bool :=
  match nodes with
  | [] => ([], false)
  | r :: rest =>
      let '(r', ch1) := f r in
      let '(rest', ch2) := forEachRoot f rest in
      (r' :: rest', ch1 || ch2)
  end.

(** [layoutHorizontal] / [layoutVertical]:
    [nodes.forEach((root) => positionChildren(root))]. *)
Definition layoutHorizontal (nodes : Tree) : Tree * bool :=
  forEachRoot (positionChildren horizontal None) nodes.

Definition layoutVertical (nodes : Tree) : Tree * bool :=
  forEachRoot (positionChildren vertical None) nodes.

(** [if (layoutMode === "horizontal") layoutHorizontal(newTree) else
    layoutVertical(newTree)] *)
Definition layoutOf (layoutMode : layoutModeT) (nodes : Tree) : Tree * bool :=
  match layoutMode with
  | horizontal => layoutHorizontal nodes
  | vertical => layoutVertical nodes
  end.

(** [updateHeights] (lines 791-800); [measure id] is the [clientHeight]
    of the element [[data-chat-id="id"]], [None] when there is none. *)
Fixpoint updateHeights_node (measure : Z -> option Qc) (n : ChatNode)
  : ChatNode * bool :=
  match n with
  | mkNode i q cs nx ny h m conv th =>
      let '(h', ch0) :=
        match measure i with
        | Some ch =>
            if (match 0 ?= ch with Lt => true | _ => false end) && neq h ch
            then (ch, true) else (h, false)
        | None => (h, false)
        end in
      let '(cs', ch) := forEachRoot (updateHeights_node measure) cs in
      (mkNode i q cs' nx ny h' m conv th, ch0 || ch)
  end.

(** The effect body: [newTree] is a deep copy of [chatTree] (JSON round
    trip, the identity on this data); it returns [newTree] and
    [hasChanges]. *)
Definition layoutEffect (measure : Z -> option Qc) (layoutMode : layoutModeT)
  (chatTree : Tree) : Tree * bool :=
  let '(newTree, ch1) := forEachRoot (updateHeights_node measure) chatTree in
  let '(newTree', ch2) := layoutOf layoutMode newTree in
  (newTree', ch1 || ch2).

(** [if (hasChanges) setChatTree(newTree)] *)
Definition runLayout (measure : Z -> option Qc) (layoutMode : layoutModeT)
  (chatTree : Tree) : Tree :=
  let '(newTree, hasChanges) := layoutEffect measure layoutMode chatTree in
  if hasChanges then newTree else chatTree.

Close Scope Qc_scope.

(** A node with every position erased: what the layout reads of a
    subtree (ids, heights, flags, shape). *)
Fixpoint skel (n : ChatNode) : ChatNode :=
  match n with
  | mkNode i q cs _ _ h m conv th =>
      mkNode i q (map skel cs) 0%Qc 0%Qc h m conv th
  end.

(** A node whose height already equals its positive measurement. *)
Definition measured_ok (measure : Z -> option Qc) (p : ChatNode) : bool :=
  match measure (id p) with
  | Some ch =>
      if (match (0 ?= ch)%Qc with Lt => true | _ => false end)
      then Qc_eq_bool (height p) ch else true
  | None => true
  end.

Fixpoint heights_stable (measure : Z -> option Qc) (n : ChatNode) : bool :=
  match n with
  | mkNode _ _ cs _ _ _ _ _ _ =>
      measured_ok measure n && forallb (heights_stable measure) cs
  end.

(** The offset reached before the [j]-th child. *)
Fixpoint prefixStep (mode : layoutModeT) (j : nat) (l : list ChatNode) : Qc :=
  match j, l with
  | O, _ => 0%Qc
  | S j', c :: l' => (offsetStep mode c + prefixStep mode j' l')%Qc
  | S _, [] => 0%Qc
  end.

(** Where the layout puts the [j]-th child [c] of [p]. *)
Definition slotPos (mode : layoutModeT) (p : ChatNode) (j : nat) (c : ChatNode)
  : Qc * Qc :=
  childPos mode (x p) (y p) (height p)
    (startOffset mode (x p) (y p) (height p) (children p)
     + prefixStep mode j (children p))%Qc c.

(** The centering example: a parent at (725, 500) of height 200 with two
    leaf children of height 100. *)
Definition centeringTree : Tree :=
  [mkNode 1 None [with_height (leaf 2) (qc 100); with_height (leaf 3) (qc 100)]
     (qc 725) (qc 500) (qc 200) false [] false].

(** A tree whose node 2 was dragged to (3000, 40) and has a child 3. *)
Definition manualNode : ChatNode :=
  mkNode 2 None [leaf 3] (qc 3000) (qc 40) (qc 150) true [] false.

Definition manualTree : Tree :=
  [mkNode 1 None [manualNode] (qc 725) (qc 500) (qc 200) false [] false].

(** ** The actions of the canvas

    Every [setChatTree] of the page component: the two ways of adding a
    child, the delete button, dragging, the updates of
    [handleNewMessage] and the layout effect. *)
Inductive action :=
  | CreateFromSelection (newId src : Z) (text : jstr)
  | Branch (newId src : Z)
  | Delete (chatId : Z)
  | PositionChange (chatId : Z) (px py : Qc)
  | UserMessage (chatId : Z) (message : jstr)
  | Placeholder (chatId : Z)
  | ResponseChunk (chatId : Z) (chunkValue : jstr)
  | ErrorState (chatId : Z)
  | Layout (measure : Z -> option Qc) (layoutMode : layoutModeT).

Definition applyAction (a : action) (t : Tree) : Tree :=
  match a with
  | CreateFromSelection newId src text => createFromSelection newId src text t
  | Branch newId src => branch newId src t
  | Delete chatId => deleteNode chatId t
  | PositionChange chatId px py => updatePosition chatId px py t
  | UserMessage chatId message => map (appendMessage chatId message) t
  | Placeholder chatId => map (addAssistantPlaceholder chatId) t
  | ResponseChunk chatId chunkValue => map (appendResponseChunk chatId chunkValue) t
  | ErrorState chatId => map (setErrorState chatId) t
  | Layout measure layoutMode => runLayout measure layoutMode t
  end.

(** The delete button is rendered only when [!isRoot], with
    [isRoot = chat.id === chatTree[0]?.id] (lines 282 and 1097). *)
Definition enabled (a : action) (t : Tree) : bool :=
  match a with
  | Delete chatId =>
      match t with
      | r :: _ => negb (Z.eqb chatId (id r))
      | [] => true
      end
  | _ => true
  end.

(** A session of the page: the actions the UI offers, in order. *)
Fixpoint runUI (acts : list action) (t : Tree) : Tree :=
  match acts with
  | [] => t
  | a :: rest => runUI rest (if enabled a t then applyAction a t else t)
  end.

(** ** The [/api/chat] route (src/src/app/api/chat/route.ts)

    The file holds two versions of [POST]: the plain relay (lines 1-83)
    and the version with a search tool (lines 85-232). *)

(** JSON values as [req.json()] returns them; numbers as [Qc] (JSON has
    no NaN), members in source order. *)
Inductive jsval :=
  | JNull
  | JBool (b : bool)
  | JNum (q : Qc)
  | JStr (s : jstr)
  | JArr (l : list jsval)
  | JObj (members : list (string * jsval)).

(** A missing member reads as [undefined]. *)
Inductive jsfield := JUndef | JVal (v : jsval).

(** [!!v] *)
Definition truthy_val (v : jsval) : bool :=
  match v with
  | JNull => false
  | JBool b => b
  | JNum q => negb (Qc_eq_bool q 0%Qc)
  | JStr s => truthy_str s
  | JArr _ | JObj _ => true
  end.

Definition truthy (f : jsfield) : bool :=
  match f with JUndef => false | JVal v => truthy_val v end.

(** [obj.name]: [JSON.parse] keeps the last of duplicated members. *)
Definition get_member (members : list (string * jsval)) (name : string) : jsfield :=
  fold_left (fun acc kv => if String.eqb (fst kv) name then JVal (snd kv) else acc)
            members JUndef.

(** Exceptions: an [OpenAI.APIError] carries the provider's HTTP status
    ([undefined] for a connection error) and message. *)
Inductive exn :=
  | APIError (errStatus : option Z) (message : jstr)
  | OtherError.

Inductive respBody :=
  | RJsonError (error : jstr)   (* [JSON.stringify({ error })] *)
  | RText (text : jstr)
  | RStream (text : jstr).      (* the [text/markdown] stream *)

(** [new Response(body, init)]: the status is 200 when [init.status] is
    not given. *)
Record response := mkResp { status : Z; rbody : respBody }.

Definition promptRequired : response := mkResp 400 (RJsonError (js "Prompt is required")).

Definition internalServerError : response :=
  mkResp 500 (RText (js "Internal Server Error")).

(** [const { prompt, quotedText, parentConversation, conversation } =
    await req.json()]: a body that is not JSON makes [req.json()] throw
    ([None]); destructuring [null] throws; other primitives and arrays
    have none of the four members. *)
Definition read_body (body : option jsval)
  : exn + (jsfield * jsfield * jsfield * jsfield) :=
  match body with
  | None => inl OtherError
  | Some JNull => inl OtherError
  | Some (JObj ms) =>
      inr (get_member ms "prompt", get_member ms "quotedText",
           get_member ms "parentConversation", get_member ms "conversation")
  | Some _ => inr (JUndef, JUndef, JUndef, JUndef)
  end.

(** [messages.push(...conversation)] iterates its argument: only strings
    and arrays are iterable among JSON values. *)
Definition iterable (f : jsfield) : bool :=
  match f with JVal (JStr _) | JVal (JArr _) => true | _ => false end.

(** [ToString] of a JSON value ([`${v}`], [RegExp.prototype.test(v)]):
    primitives convert; an array joins its elements, [null] ones as
    [""]; an object without an own [toString] member gives
    ["[object Object]"].  A JSON object with an own [toString] member
    throws a [TypeError]: that member is not callable, and neither is
    an own [valueOf], while the inherited [valueOf] returns the object
    itself, which is not a primitive. *)
Fixpoint toString_throws (v : jsval) : bool :=
  match v with
  | JArr l => existsb toString_throws l
  | JObj ms => match get_member ms "toString" with JVal _ => true | JUndef => false end
  | _ => false
  end.

Definition field_toString_throws (f : jsfield) : bool :=
  match f with JUndef => false | JVal v => toString_throws v end.

Module Plain.
  (** The catch block (lines 75-82). *)
Definition catch (e : exn) : response :=
    match e with
    | APIError st message =>
        mkResp (match st with Some s => s | None => 200 end) (RText message)
    | OtherError => internalServerError
    end.

  (** [POST] (lines 10-83).  [create] is the outcome of
      [openai.chat.completions.create]: the exception it throws, or the
      [delta.content] of the chunks it streams ([""] when absent); only
      truthy contents are enqueued. *)
Definition POST (body : option jsval) (create : exn + list jstr) : response :=
    match read_body body with
    | inl e => catch e
    | inr (prompt, quotedText, parentConversation, conversation) =>
        if negb (truthy prompt) then promptRequired
        (* the template of line 32 *)
        else if truthy parentConversation && field_toString_throws parentConversation
        then catch OtherError
        else if truthy conversation && negb (iterable conversation)
        then catch OtherError
        (* the template of line 42 *)
        else if truthy quotedText &&
                (field_toString_throws quotedText || field_toString_throws prompt)
        then catch OtherError
        (* [listIntentRegex.test(prompt)], line 47 *)
        else if field_toString_throws prompt then catch OtherError
        else match create with
             | inl e => catch e
             | inr contents =>
                 mkResp 200 (RStream (List.concat (filter truthy_str contents)))
             end
    end.
End Plain.

Module Tool.
  (** Decimal digits of a status code. *)
Fixpoint dec_go (fuel : nat) (n : N) (acc : jstr) : jstr :=
    match fuel with
    | O => acc
    | S f =>
        let acc' := (48 + n mod 10) :: acc in
        if n <? 10 then acc' else dec_go f (n / 10) acc'
    end.

Definition show_status (n : N) : jstr := dec_go (S (N.size_nat n)) n [].

  (** What [fetch] of the search endpoint gives: a non-ok status, or the
      [choices[0].message.content] of the JSON answer ([""] when absent). *)
Inductive fetchOutcome := FetchNotOk (st : N) | FetchOk (content : jstr).

Inductive toolOutput := ToolError (error : jstr) | ToolAnswer (answer : jstr).

  (** [search.execute] (lines 128-180); [apiKey] is
      [process.env.PARALLEL_API_KEY]. *)
Definition search_execute (apiKey : option jstr) (resp : fetchOutcome)
    : toolOutput :=
    match apiKey with
    | Some k =>
        if truthy_str k then
          match resp with
          | FetchNotOk st => ToolError (js "parallel error " ++ show_status st)
          | FetchOk content => ToolAnswer content
          end
        else ToolError (js "parallel api key is missing")
    | None => ToolError (js "parallel api key is missing")
    end.

Inductive streamPart :=
    | TextDelta (text : jstr)
    | ToolResult (output : toolOutput)
    | OtherPart.

  (** The stream of lines 204-223: text deltas, and the [answer] of the
      tool results that have a truthy one. *)
Definition streamPart_text (p : streamPart) : jstr :=
    match p with
    | TextDelta text => text
    | ToolResult (ToolAnswer answer) => if truthy_str answer then answer else []
    | ToolResult (ToolError _) => []
    | OtherPart => []
    end.

Definition streamBody (parts : list streamPart) : jstr :=
    List.concat (map streamPart_text parts).

  (** [POST] (lines 92-232).  [call] is the outcome of
      [await streamText(...)]: the exception it throws, or the parts of
      its [fullStream]. *)
Definition POST (body : option jsval) (call : exn + list streamPart) : response :=
    match read_body body with
    | inl _ => internalServerError
    | inr (prompt, quotedText, parentConversation, conversation) =>
        if negb (truthy prompt) then promptRequired
        (* the template of line 108 *)
        else if truthy quotedText &&
                (field_toString_throws quotedText || field_toString_throws prompt)
        then internalServerError
        (* [listIntentRegex.test(prompt)], line 113 *)
        else if field_toString_throws prompt then internalServerError
        (* the template of line 191 *)
        else if truthy parentConversation && field_toString_throws parentConversation
        then internalServerError
        else match call with
             | inl _ => internalServerError
             | inr parts => mkResp 200 (RStream (streamBody parts))
             end
    end.
End Tool.

(** A request body carrying a prompt. *)
Definition promptBody (prompt : jsval) : option jsval :=
  Some (JObj [("prompt"%string, prompt)]).

(** ** Links between cards ([links], lines 523-535, drawn at lines 1014-1078) *)

(** [findPairs]: for each node, a pair per child, then the pairs of its
    children. *)
Fixpoint findPairs_node (n : ChatNode) : list (ChatNode * ChatNode) :=
  match n with
  | mkNode _ _ cs _ _ _ _ _ _ =>
      map (fun child => (n, child)) cs ++ List.concat (map findPairs_node cs)
  end.

Definition links (t : Tree) : list (ChatNode * ChatNode) :=
  List.concat (map findPairs_node t).

Open Scope Qc_scope.

(** [Math.min(a, b)] and [Math.abs(a)] *)
Definition js_min (a b : Qc) : Qc :=
  match b ?= a with Lt => b | _ => a end.

Definition js_abs (a : Qc) : Qc :=
  match a ?= 0 with Lt => - a | _ => a end.

(** The end points [x1, y1, x2, y2] of the curve from [parent] to [child]. *)
Definition linkEnds (layoutMode : layoutModeT) (parent child : ChatNode)
  : Qc * Qc * Qc * Qc :=
  match layoutMode with
  | horizontal =>
      (x parent + CARD_WIDTH, y parent + height parent / two,
       x child, y child + height child / two)
  | vertical =>
      (x parent + CARD_WIDTH / two, y parent + height parent,
       x child + CARD_WIDTH / two, y child)
  end.

(** The [svg] box of a link and the end points inside it. *)
Record linkGeom := mkLinkGeom {
  lg_left : Qc; lg_top : Qc; lg_width : Qc; lg_height : Qc;
  lg_sx1 : Qc; lg_sy1 : Qc; lg_sx2 : Qc; lg_sy2 : Qc
}.

Definition linkGeometry (layoutMode : layoutModeT) (parent child : ChatNode)
  : linkGeom :=
  let '(x1, y1, x2, y2) := linkEnds layoutMode parent child in
  let left := js_min x1 x2 - qc 10 in
  let top := js_min y1 y2 - qc 10 in
  let width := js_abs (x2 - x1) + qc 20 in
  let height := js_abs (y2 - y1) + qc 20 in
  mkLinkGeom left top width height (x1 - left) (y1 - top) (x2 - left) (y2 - top).

Close Scope Qc_scope.

(** ** [findParent] and the request of [handleNewMessage] (lines 668-710) *)

Fixpoint findParent_node (childId : Z) (n : ChatNode) : option ChatNode :=
  match n with
  | mkNode _ _ cs _ _ _ _ _ _ =>
      if existsb (fun child => Z.eqb (id child) childId) cs then Some n
      else (fix go (l : list ChatNode) : option ChatNode :=
              match l with
              | [] => None
              | c :: l' =>
                  match findParent_node childId c with
                  | Some p => Some p
                  | None => go l'
                  end
              end) cs
  end.

Fixpoint findParent (nodes : list ChatNode) (childId : Z) : option ChatNode :=
  match nodes with
  | [] => None
  | c :: l' =>
      match findParent_node childId c with
      | Some p => Some p
      | None => findParent l' childId
      end
  end.

(** [node.children.some((child) => child.id === childId)] *)
Definition hasChild (childId : Z) (n : ChatNode) : bool :=
  existsb (fun child => Z.eqb (id child) childId) (children n).

Definition role_str (r : role) : jstr :=
  match r with user => js "user" | assistant => js "assistant" end.

(** [parentNode.conversation.map((m) => `${m.role}: ${m.content}`).join("\n")] *)
Definition transcript (conv : list ChatMessage) : jstr :=
  join [10] (map (fun m => role_str (role_of m) ++ js ": " ++ content m) conv).

Definition msg_json (m : ChatMessage) : jsval :=
  JObj [("role"%string, JStr (role_str (role_of m))); ("content"%string, JStr (content m))].

(** [JSON.stringify({ prompt, quotedText, parentConversation,
    conversation })], the members that are [undefined] being left out;
    [chatTree] is the tree of the render that sent the message. *)
Definition requestBody (chatTree : Tree) (chatId : Z) (message : jstr) : jsval :=
  let currentNodeDetails := findNode chatTree chatId in
  let parentConversation :=
    option_map (fun p => transcript (conversation p)) (findParent chatTree chatId) in
  JObj ([("prompt"%string, JStr message)]
        ++ match currentNodeDetails with
           | Some n => match quotedText n with
                       | Some q => [("quotedText"%string, JStr q)]
                       | None => []
                       end
           | None => []
           end
        ++ match parentConversation with
           | Some s => [("parentConversation"%string, JStr s)]
           | None => []
           end
        ++ match currentNodeDetails with
           | Some n => [("conversation"%string, JArr (map msg_json (conversation n)))]
           | None => []
           end).

(** [JSON.parse] of the members above, as the route reads them. *)
Definition opt_field (o : option jsval) : jsfield :=
  match o with Some v => JVal v | None => JUndef end.

(** ** The card component [DraggableChat] (lines 87-270) *)

Module Card.
(** [handleSend] (lines 261-265): the message sent, if any, and the new
    [inputValue]. *)
Definition handleSend (inputValue : jstr) : option jstr * jstr :=
  if negb (truthy_str (trim inputValue)) then (None, inputValue)
  else (Some inputValue, []).

Record dragState := mkDrag {
  isDragging : bool; dragStartX : Qc; dragStartY : Qc; boxX : Qc; boxY : Qc
}.

(** [handleHeaderMouseDown] (lines 145-156). *)
Definition handleHeaderMouseDown (canvasX0 canvasY0 scale clientX clientY : Qc)
  (s : dragState) : dragState :=
  let canvasX := ((clientX - canvasX0) / scale)%Qc in
  let canvasY := ((clientY - canvasY0) / scale)%Qc in
  mkDrag true (canvasX - boxX s)%Qc (canvasY - boxY s)%Qc (boxX s) (boxY s).

(** [handleGlobalMouseMove] (lines 159-170): the new state and the
    [onPositionChange] payload. *)
Definition handleGlobalMouseMove (canvasX0 canvasY0 scale clientX clientY : Qc)
  (chatId : Z) (s : dragState) : dragState * option (Z * Qc * Qc) :=
  if isDragging s then
    let canvasX := ((clientX - canvasX0) / scale)%Qc in
    let canvasY := ((clientY - canvasY0) / scale)%Qc in
    let nextX := (canvasX - dragStartX s)%Qc in
    let nextY := (canvasY - dragStartY s)%Qc in
    (mkDrag true (dragStartX s) (dragStartY s) nextX nextY, Some (chatId, nextX, nextY))
  else (s, None).

(** [handleGlobalMouseUp] (lines 172-174). *)
Definition handleGlobalMouseUp (s : dragState) : dragState :=
  mkDrag false (dragStartX s) (dragStartY s) (boxX s) (boxY s).
End Card.

(** ** Pan and zoom of the canvas (lines 896-942) *)

Module Canvas.
Record panState := mkPan {
  isPanning : bool; startPanX : Qc; startPanY : Qc; positionX : Qc; positionY : Qc
}.

(** [handleMouseDown] (lines 896-907); [stopPan] is
    [e.target.closest("[data-stop-pan]")] being found. *)
Definition handleMouseDown (stopPan : bool) (button : Z) (clientX clientY : Qc)
  (s : panState) : panState :=
  if stopPan then s
  else if Z.eqb button 0 then
    mkPan true (clientX - positionX s)%Qc (clientY - positionY s)%Qc
          (positionX s) (positionY s)
  else s.

(** [handleMouseMove] (lines 909-916). *)
Definition handleMouseMove (clientX clientY : Qc) (s : panState) : panState :=
  if isPanning s then
    mkPan true (startPanX s) (startPanY s)
          (clientX - startPanX s)%Qc (clientY - startPanY s)%Qc
  else s.

(** [handleMouseUp] (lines 918-920). *)
Definition handleMouseUp (s : panState) : panState :=
  mkPan false (startPanX s) (startPanY s) (positionX s) (positionY s).

Record view := mkView { posX : Qc; posY : Qc; scale : Qc }.

(** [handleWheel] (lines 922-942); [rect] is the [left] and [top] of
    [canvasRef.current?.getBoundingClientRect()]; [-0.001] is taken as
    the exact rational. *)
Definition handleWheel (deltaY clientX clientY : Qc) (rect : option (Qc * Qc))
  (v : view) : view :=
  let delta := (deltaY * Q2Qc (-1 # 1000))%Qc in
  let newScale := js_min (js_max (Q2Qc (1 # 10)) (scale v + delta)%Qc) (qc 3) in
  match rect with
  | Some (rectLeft, rectTop) =>
      let mouseX := (clientX - rectLeft)%Qc in
      let mouseY := (clientY - rectTop)%Qc in
      let scaleChange := (newScale / scale v)%Qc in
      mkView (mouseX - (mouseX - posX v) * scaleChange)%Qc
             (mouseY - (mouseY - posY v) * scaleChange)%Qc newScale
  | None => mkView (posX v) (posY v) newScale
  end.

(** [card?.clientHeight || 200] and [card?.clientWidth || CARD_WIDTH];
    [measure id] is the [(clientHeight, clientWidth)] of the card. *)
Definition cardSize (measure : Z -> option (Qc * Qc)) (i : Z) : Qc * Qc :=
  match measure i with
  | Some (h, w) =>
      ((if Qc_eq_bool h 0%Qc then qc 200 else h),
       (if Qc_eq_bool w 0%Qc then CARD_WIDTH else w))
  | None => (qc 200, CARD_WIDTH)
  end.

(** One turn of the [flatChats.forEach] of [getCanvasAndContentSize]; the
    four bounds start at [Infinity] / [-Infinity] and move together, so
    [None] stands for the four infinite ones. *)
Definition bounds_step (measure : Z -> option (Qc * Qc))
  (acc : option (Qc * Qc * Qc * Qc)) (chat : FlatNode) : option (Qc * Qc * Qc * Qc) :=
  let '(cardHeight, cardWidth) := cardSize measure (f_id chat) in
  match acc with
  | None => Some (f_x chat, (f_x chat + cardWidth)%Qc, f_y chat, (f_y chat + cardHeight)%Qc)
  | Some (minX, maxX, minY, maxY) =>
      Some (js_min minX (f_x chat), js_max maxX (f_x chat + cardWidth)%Qc,
            js_min minY (f_y chat), js_max maxY (f_y chat + cardHeight)%Qc)
  end.

(** [getCanvasAndContentSize] (lines 950-974): width and height. *)
Definition getCanvasAndContentSize (measure : Z -> option (Qc * Qc))
  (flatChats : list FlatNode) (innerWidth innerHeight : Qc) : Qc * Qc :=
  let padding := qc 200 in
  let '(contentWidth, contentHeight) :=
    match fold_left (bounds_step measure) flatChats None with
    | None => (0%Qc, 0%Qc)
    | Some (minX, maxX, minY, maxY) =>
        ((maxX - minX + two * padding)%Qc, (maxY - minY + two * padding)%Qc)
    end in
  (js_max (innerWidth * two)%Qc contentWidth, js_max (innerHeight * two)%Qc contentHeight).
End Canvas.

(** ** The [/api/assistant] route (part_000) *)

Module Assistant.
(** A thrown value and its [message] ([error?.message]). *)
Inductive aexn := AExn (message : option jstr).

(** The catch block (lines 63-69). *)
Definition catch (e : aexn) : response :=
  let '(AExn message) := e in
  mkResp 500 (RJsonError (match message with
                          | Some m => if truthy_str m then m else js "internal server error"
                          | None => js "internal server error"
                          end)).

(** [POST] (lines 6-70).  [json] is [await req.json()] (or what it
    throws), [nullError] what destructuring [null] throws, [apiKey] is
    [process.env.PARALLEL_API_KEY], and [create] the outcome of
    [client.chat.completions.create]: what it throws, or the
    [delta?.content] of the chunks it streams. *)
Definition POST (json : aexn + jsval) (nullError : aexn) (apiKey : option jstr)
  (create : aexn + list (option jstr)) : response :=
  let prompt :=
    match json with
    | inl e => inl e
    | inr JNull => inl nullError
    | inr (JObj ms) => inr (get_member ms "prompt"%string)
    | inr _ => inr JUndef
    end in
  match prompt with
  | inl e => catch e
  | inr prompt =>
      match prompt with
      | JVal (JStr s) =>
          if negb (truthy_str s) then mkResp 400 (RJsonError (js "prompt is required"))
          else if negb (match apiKey with Some k => truthy_str k | None => false end)
          then mkResp 500 (RJsonError (js "missing PARALLEL_API_KEY"))
          else match create with
               | inl e => catch e
               | inr deltas =>
                   mkResp 200 (RStream (List.concat
                     (map (fun d => match d with Some text => text | None => [] end) deltas)))
               end
      | _ => mkResp 400 (RJsonError (js "prompt is required"))
      end
  end.
End Assistant.

(** A node with its conversation and thinking flag cleared: what the
    canvas draws of its geometry and shape. *)
Fixpoint geom (n : ChatNode) : ChatNode :=
  match n with
  | mkNode i q cs nx ny h m _ _ => mkNode i q (map geom cs) nx ny h m [] false
  end.

(** The flat node moved by [dx, dy]. *)
Definition shift_flat (dx dy : Qc) (d : FlatNode) : FlatNode :=
  mkFlat (f_id d) (f_x d + dx)%Qc (f_y d + dy)%Qc (f_height d) (f_quotedText d)
         (f_conversation d) (f_isThinking d).

(** A run of [mousemove] events on the canvas. *)
Definition pan_moves (moves : list (Qc * Qc)) (s : Canvas.panState) : Canvas.panState :=
  fold_left (fun st m => Canvas.handleMouseMove (fst m) (snd m) st) moves s.

(** The bounds accumulated by [getCanvasAndContentSize] over the cards
    seen so far. *)
Definition bounds_inv (measure : Z -> option (Qc * Qc))
  (acc : option (Qc * Qc * Qc * Qc)) (seen : list FlatNode) : Prop :=
  match acc with
  | None => seen = []
  | Some (minX, maxX, minY, maxY) =>
      forall f, In f seen ->
        (minX <= f_x f /\ f_x f + snd (Canvas.cardSize measure (f_id f)) <= maxX /\
         minY <= f_y f /\ f_y f + fst (Canvas.cardSize measure (f_id f)) <= maxY)%Qc
  end.

(** A run of [mousemove] events on the document during a card drag. *)
Definition drag_moves (canvasX0 canvasY0 scale : Qc) (chatId : Z)
  (moves : list (Qc * Qc)) (s : Card.dragState) : Card.dragState :=
  fold_left (fun st m => fst (Card.handleGlobalMouseMove canvasX0 canvasY0 scale
                                (fst m) (snd m) chatId st)) moves s.

(** The number a string of decimal digits denotes. *)
Definition dec_value (s : jstr) : N :=
  fold_left (fun acc d => acc * 10 + (d - 48)) s 0.

(* DEFS-END *)

(** * Properties *)

(** ** Lemmas on the string helpers *)

Lemma split_go_no_lf_aux : forall n s cur,
  (List.length s <= n)%nat -> ~ In 10 cur ->
  forall l, In l (split_go cur s) -> ~ In 10 l.
Proof.
  induction n as [|n IH]; intros s cur Hlen Hcur l Hin.
  - destruct s; [|simpl in Hlen; lia].
    simpl in Hin. destruct Hin as [<-|[]]. rewrite <- in_rev. exact Hcur.
  - destruct s as [|c rest].
    + simpl in Hin. destruct Hin as [<-|[]]. rewrite <- in_rev. exact Hcur.
    + simpl in Hlen. simpl in Hin.
      destruct (N.eqb_spec c 10) as [Hc|Hc].
      * destruct Hin as [<-|Hin].
        -- rewrite <- in_rev. exact Hcur.
        -- apply (IH rest []); [lia| simpl; tauto | exact Hin].
      * destruct (N.eqb_spec c 13) as [Hc13|Hc13].
        -- destruct rest as [|d rest'].
           ++ apply (IH [] (c :: cur)); [simpl; lia| |exact Hin].
              simpl. intros [H|H]; [congruence|tauto].
           ++ destruct (N.eqb_spec d 10).
              ** destruct Hin as [<-|Hin].
                 --- rewrite <- in_rev. exact Hcur.
                 --- apply (IH rest' []); [simpl in Hlen; lia|simpl; tauto|exact Hin].
              ** apply (IH (d :: rest') (c :: cur)); [lia| |exact Hin].
                 simpl. intros [H|H]; [congruence|tauto].
        -- apply (IH rest (c :: cur)); [lia| |exact Hin].
           simpl. intros [H|H]; [congruence|tauto].
Qed.

Lemma split_lines_no_lf : forall s l, In l (split_lines s) -> ~ In 10 l.
Proof.
  intros s l. apply (split_go_no_lf_aux (List.length s) s []); [lia|simpl; tauto].
Qed.

Lemma lines_of_shape : forall text l,
  In l (lines_of text) -> l <> [] /\ ~ In 10 l.
Proof.
  intros text l Hin. unfold lines_of in Hin.
  apply filter_In in Hin as [Hin Ht]. split.
  - destruct l; [discriminate|congruence].
  - exact (split_lines_no_lf _ _ Hin).
Qed.

Lemma join_no_lf : forall sep xs,
  ~ In 10 sep -> (forall l, In l xs -> ~ In 10 l) -> ~ In 10 (join sep xs).
Proof.
  intros sep xs Hsep. induction xs as [|a rest IH]; intros Hxs.
  - simpl. tauto.
  - destruct rest as [|b rest'].
    + simpl. apply Hxs. simpl. tauto.
    + change (join sep (a :: b :: rest')) with (a ++ sep ++ join sep (b :: rest')).
      rewrite !in_app_iff. intros [H|[H|H]].
      * apply (Hxs a); simpl; tauto.
      * exact (Hsep H).
      * apply IH; [|exact H]. intros l Hl. apply Hxs. simpl in *. tauto.
Qed.

Lemma firstn_In : forall {A} n (l : list A) a, In a (firstn n l) -> In a l.
Proof.
  intros A n l a H. rewrite <- (firstn_skipn n l). apply in_app_iff. left. exact H.
Qed.

(** ** C1: [truncateSelection] *)

(** C1 (corrected).  [truncateSelection] trims the whole text, splits
    it at ["\n"] or ["\r\n"], drops the EMPTY lines only, joins the first
    two remaining lines with one space; if that is longer than 240 code
    units it returns its first 240 code units followed by "…", otherwise
    it returns it unchanged.  The kept lines are non-empty and contain no
    line feed, so neither does the result, which has at most 241 code
    units.  On "Line one.\nLine two.\nLine three." it returns
    "Line one. Line two.". *)
Theorem truncateSelection_spec : forall text,
  let lines := lines_of text in
  let firstTwo := join (js " ") (firstn 2 lines) in
  (forall l, In l lines -> l <> [] /\ ~ In 10 l) /\
  firstTwo = match lines with
             | [] => []
             | [a] => a
             | a :: b :: _ => a ++ js " " ++ b
             end /\
  ((List.length firstTwo <= 240)%nat -> truncateSelection text = firstTwo) /\
  ((240 < List.length firstTwo)%nat ->
     truncateSelection text = firstn 240 firstTwo ++ [ellipsis] /\
     List.length (truncateSelection text) = 241%nat) /\
  (List.length (truncateSelection text) <= 241)%nat /\
  ~ In 10 (truncateSelection text) /\
  truncateSelection (js "Line one.
Line two.
Line three.") = js "Line one. Line two.".
Proof.
  intros text lines firstTwo.
  assert (Hlines : forall l, In l lines -> l <> [] /\ ~ In 10 l)
    by (intros l; apply lines_of_shape).
  assert (Hft : ~ In 10 firstTwo).
  { apply join_no_lf; [simpl; intuition discriminate|].
    intros l Hl. apply Hlines. eapply firstn_In. exact Hl. }
  assert (Hdef : truncateSelection text =
                 if Nat.ltb 240 (List.length firstTwo)
                 then firstn 240 firstTwo ++ [ellipsis] else firstTwo)
    by reflexivity.
  split; [exact Hlines|].
  split.
  { unfold firstTwo. destruct lines as [|a [|b rest]]; reflexivity. }
  split.
  { intros Hle. rewrite Hdef. destruct (Nat.ltb_spec 240 (List.length firstTwo)); [lia|reflexivity]. }
  split.
  { intros Hlt. rewrite Hdef. destruct (Nat.ltb_spec 240 (List.length firstTwo)); [|lia].
    split; [reflexivity|]. rewrite length_app, firstn_length_le; simpl; lia. }
  split.
  { rewrite Hdef. destruct (Nat.ltb_spec 240 (List.length firstTwo)).
    - rewrite length_app, firstn_length_le; simpl; lia.
    - lia. }
  split.
  { rewrite Hdef. destruct (Nat.ltb 240 (List.length firstTwo)).
    - rewrite in_app_iff. intros [H|H].
      + apply Hft. eapply firstn_In. exact H.
      + simpl in H. unfold ellipsis in H. destruct H as [H|[]]. discriminate.
    - exact Hft. }
  vm_compute. reflexivity.
Qed.

(** C1 counterexample: a line made of blanks is not dropped.  On
    "Line one.\n   \nLine two." the first two non-blank lines joined by a
    space would be "Line one. Line two.", but the code keeps the blank
    line "   " and returns "Line one." followed by four spaces. *)
Lemma truncateSelection_keeps_blank_line :
  truncateSelection (js "Line one.
   
Line two.") = js "Line one.    " /\
  truncateSelection (js "Line one.
   
Line two.") <> js "Line one. Line two.".
Proof. split; vm_compute; [reflexivity|discriminate]. Qed.

(** ** C6: [updatePosition] *)

Lemma moveChild_zero : forall n, moveChild 0%Qc 0%Qc n = n.
Proof.
  induction n as [i q cs nx ny h m conv th IH] using ChatNode_ind'.
  simpl. rewrite !Qcplus_0_r. f_equal.
  induction IH as [|c cs' Hc _ IHcs]; simpl; [reflexivity|].
  rewrite Hc. f_equal. exact IHcs.
Qed.

Lemma map_moveChild_zero : forall cs, map (moveChild 0%Qc 0%Qc) cs = cs.
Proof.
  induction cs as [|c cs IH]; simpl; [reflexivity|].
  rewrite moveChild_zero, IH. reflexivity.
Qed.

Lemma Qcminus_diag_0 : forall a : Qc, (a - a)%Qc = 0%Qc.
Proof. intros a. unfold Qcminus. apply Qcplus_opp_r. Qed.

Lemma updatePosition_node_idem : forall chatId px py n,
  updatePosition_node chatId px py (updatePosition_node chatId px py n)
  = updatePosition_node chatId px py n.
Proof.
  intros chatId px py n.
  induction n as [i q cs nx ny h m conv th IH] using ChatNode_ind'.
  simpl. destruct (Z.eqb_spec i chatId) as [E|E].
  - simpl. rewrite <- E, Z.eqb_refl. rewrite !Qcminus_diag_0, map_moveChild_zero.
    reflexivity.
  - simpl. apply Z.eqb_neq in E. rewrite E. f_equal.
    rewrite map_map. apply map_ext_in. intros c Hc.
    rewrite Forall_forall in IH. apply IH, Hc.
Qed.

(** C6 (confirmed).  [updatePosition(id, x, y)] applied twice with the
    same arguments yields the same tree as applied once, for every tree
    (whether or not [id] occurs in it): the second application finds the
    node already at [(x, y)] and translates its descendants by a zero
    delta. *)
Theorem updatePosition_idempotent : forall (t : Tree) chatId px py,
  updatePosition chatId px py (updatePosition chatId px py t)
  = updatePosition chatId px py t.
Proof.
  intros t chatId px py. unfold updatePosition. rewrite map_map.
  apply map_ext. apply updatePosition_node_idem.
Qed.

(** ** C5: [deleteNode] *)

Lemma all_nodes_node_eq : forall n,
  all_nodes_node n = n :: all_nodes (children n).
Proof. intros [i q cs nx ny h m conv th]. reflexivity. Qed.

Lemma all_nodes_cons : forall n rest,
  all_nodes (n :: rest) = all_nodes_node n ++ all_nodes rest.
Proof. reflexivity. Qed.

Lemma flatten_node_all : forall n, flatten_node n = map flat (all_nodes_node n).
Proof.
  induction n as [i q cs nx ny h m conv th IH] using ChatNode_ind'.
  simpl. f_equal. rewrite concat_map, map_map. f_equal.
  apply map_ext_in. intros c Hc. rewrite Forall_forall in IH. apply IH, Hc.
Qed.

Lemma flatten_all : forall t, flatten t = map flat (all_nodes t).
Proof.
  intros t. unfold flatten, all_nodes. rewrite concat_map, map_map. f_equal.
  apply map_ext. exact flatten_node_all.
Qed.

Lemma ids_all : forall t, ids t = map id (all_nodes t).
Proof. intros t. unfold ids. rewrite flatten_all, map_map. reflexivity. Qed.

Lemma removeNode_node_eq : forall k n,
  removeNode_node k n = with_children n (removeNode k (children n)).
Proof.
  intros k [i q cs nx ny h m conv th]. unfold with_children. simpl. f_equal.
  induction cs as [|c cs IH]; simpl; [reflexivity|].
  rewrite IH. reflexivity.
Qed.

Lemma with_children_same : forall n, with_children n (children n) = n.
Proof. intros [i q cs nx ny h m conv th]. reflexivity. Qed.

Lemma NoDup_app_disj : forall {A} (l1 l2 : list A) a,
  NoDup (l1 ++ l2) -> In a l1 -> ~ In a l2.
Proof.
  intros A l1 l2 a. induction l1 as [|b l1 IH]; simpl; [tauto|].
  intros Hnd [<-|Hin].
  - inversion Hnd as [|? ? Hni Hnd2]. intros Ha. apply Hni, in_app_iff. right. exact Ha.
  - inversion Hnd. apply IH; assumption.
Qed.

Section Removal.
Variable k : Z.

Lemma removeNode_absent_forest : forall l,
    Forall (fun n => ~ In k (map id (all_nodes (children n))) ->
                     removeNode_node k n = n) l ->
    ~ In k (map id (all_nodes l)) -> removeNode k l = l.
  Proof.
    induction l as [|n rest IH]; intros Hall Hk; [reflexivity|].
    inversion Hall as [|? ? Hn Hrest]; subst.
    rewrite all_nodes_cons, all_nodes_node_eq in Hk. simpl in Hk.
    rewrite map_app, in_app_iff in Hk.
    simpl. destruct (Z.eqb_spec (id n) k) as [E|E]; [tauto|].
    rewrite Hn by tauto. rewrite IH by tauto. reflexivity.
  Qed.

Lemma removeNode_node_absent : forall n,
    ~ In k (map id (all_nodes (children n))) -> removeNode_node k n = n.
  Proof.
    induction n as [i q cs nx ny h m conv th IH] using ChatNode_ind'.
    intros Hk. rewrite removeNode_node_eq. simpl.
    rewrite (removeNode_absent_forest cs IH Hk). reflexivity.
  Qed.

Lemma removeNode_absent : forall l,
    ~ In k (map id (all_nodes l)) -> removeNode k l = l.
  Proof.
    intros l. apply removeNode_absent_forest.
    apply Forall_forall. intros n _. apply removeNode_node_absent.
  Qed.
End Removal.

Lemma flatten_cons : forall n rest,
  flatten (n :: rest) = flatten_node n ++ flatten rest.
Proof. reflexivity. Qed.

Lemma flatten_node_eq : forall n, flatten_node n = flat n :: flatten (children n).
Proof. intros [i q cs nx ny h m conv th]. reflexivity. Qed.

Lemma flat_with_children : forall n cs, flat (with_children n cs) = flat n.
Proof. intros [i q cs0 nx ny h m conv th] cs. reflexivity. Qed.

Lemma splits_forest : forall l,
  Forall (fun n => splits_at_subtree (children n)) l -> splits_at_subtree l.
Proof.
  induction l as [|n rest IH]; intros Hall Hnd sub Hin; [destruct Hin|].
  inversion Hall as [|? ? Hn Hrest]; subst.
  rewrite all_nodes_cons, all_nodes_node_eq in Hin, Hnd.
  simpl in Hnd. rewrite map_app in Hnd.
  apply NoDup_cons_iff in Hnd as [Hnin Hnd].
  rewrite in_app_iff in Hnin.
  rewrite flatten_cons, flatten_node_eq.
  simpl in Hin. rewrite in_app_iff in Hin.
  destruct Hin as [<-|[Hin|Hin]].
  - (* the deleted node is [n] itself *)
    exists [], (flatten rest). split.
    + rewrite flatten_node_eq. reflexivity.
    + simpl. rewrite Z.eqb_refl. rewrite removeNode_absent by tauto. reflexivity.
  - (* inside [n]'s subtree *)
    assert (Hid : In (id sub) (map id (all_nodes (children n)))) by (apply in_map; exact Hin).
    assert (Hne : id n <> id sub) by (intros E; rewrite E in Hnin; tauto).
    assert (Hrest_abs : ~ In (id sub) (map id (all_nodes rest)))
      by exact (NoDup_app_disj _ _ _ Hnd Hid).
    destruct (Hn (NoDup_app_remove_r _ _ Hnd) sub Hin) as [pre [post [E1 E2]]].
    exists (flat n :: pre), (post ++ flatten rest). split.
    + rewrite E1. simpl. rewrite <- !app_assoc. reflexivity.
    + simpl. apply Z.eqb_neq in Hne. rewrite Hne.
      rewrite removeNode_absent by exact Hrest_abs.
      rewrite removeNode_node_eq, flatten_cons, flatten_node_eq, flat_with_children.
      simpl. rewrite E2. rewrite <- app_assoc. reflexivity.
  - (* in a later sibling *)
    assert (Hid : In (id sub) (map id (all_nodes rest))) by (apply in_map; exact Hin).
    assert (Hne : id n <> id sub) by (intros E; rewrite E in Hnin; tauto).
    assert (Hch_abs : ~ In (id sub) (map id (all_nodes (children n)))).
    { intros Hc. exact (NoDup_app_disj _ _ _ Hnd Hc Hid). }
    destruct (IH Hrest (NoDup_app_remove_l _ _ Hnd) sub Hin) as [pre [post [E1 E2]]].
    exists (flat n :: flatten (children n) ++ pre), post. split.
    + rewrite E1. simpl. rewrite <- !app_assoc. reflexivity.
    + simpl. apply Z.eqb_neq in Hne. rewrite Hne.
      rewrite (removeNode_node_absent _ n Hch_abs), flatten_cons, flatten_node_eq.
      rewrite E2. simpl. rewrite <- app_assoc. reflexivity.
Qed.

Lemma splits_children : forall n, splits_at_subtree (children n).
Proof.
  induction n as [i q cs nx ny h m conv th IH] using ChatNode_ind'.
  simpl. apply splits_forest. exact IH.
Qed.

Lemma splits_tree : forall t, splits_at_subtree t.
Proof.
  intros t. apply splits_forest. apply Forall_forall. intros n _.
  apply splits_children.
Qed.

(** C5 (confirmed).  In a tree with unique ids, [deleteNode id] removes
    exactly the pre-order block of the node with that id (the node and
    its whole subtree) from the flattened list and leaves every other
    entry, and their order, unchanged; so deleting a node with exactly
    two descendants shrinks the flattened list by exactly three. *)
Theorem deleteNode_removes_subtree : forall (t : Tree) sub,
  NoDup (ids t) -> In sub (all_nodes t) ->
  exists pre post,
    flatten t = pre ++ flatten_node sub ++ post /\
    flatten (deleteNode (id sub) t) = pre ++ post /\
    (List.length (flatten (children sub)) = 2%nat ->
     (List.length (flatten (deleteNode (id sub) t)) + 3
      = List.length (flatten t))%nat).
Proof.
  intros t sub Hnd Hin. rewrite ids_all in Hnd.
  destruct (splits_tree t Hnd sub Hin) as [pre [post [E1 E2]]].
  exists pre, post. unfold deleteNode. split; [exact E1|]. split; [exact E2|].
  intros Hlen. rewrite E1, E2, flatten_node_eq. rewrite !length_app. simpl. rewrite Hlen. lia.
Qed.

Lemma deleteNode_removes_subtree_witness :
  NoDup (ids sampleTree) /\ In sampleSub (all_nodes sampleTree) /\
  List.length (flatten (children sampleSub)) = 2%nat /\
  exists pre post,
    flatten sampleTree = pre ++ flatten_node sampleSub ++ post /\
    flatten (deleteNode (id sampleSub) sampleTree) = pre ++ post /\
    (List.length (flatten (children sampleSub)) = 2%nat ->
     (List.length (flatten (deleteNode (id sampleSub) sampleTree)) + 3
      = List.length (flatten sampleTree))%nat).
Proof.
  assert (Hnd : NoDup (ids sampleTree)).
  { simpl. repeat (constructor; [simpl; intuition discriminate|]). constructor. }
  assert (Hin : In sampleSub (all_nodes sampleTree)) by (simpl; tauto).
  assert (Hlen : List.length (flatten (children sampleSub)) = 2%nat) by reflexivity.
  split; [exact Hnd|]. split; [exact Hin|]. split; [exact Hlen|].
  exact (deleteNode_removes_subtree sampleTree sampleSub Hnd Hin).
Defined.

(** ** C9: streaming append order *)

Lemma findNode_node_self : forall k c, id c = k -> findNode_node k c = Some c.
Proof.
  intros k [i q cs nx ny h m conv th] E. simpl in E. subst.
  simpl. rewrite Z.eqb_refl. reflexivity.
Qed.

Section FindMap.
Variable k : Z.
Variable f : ChatNode -> ChatNode.
Hypothesis f_id : forall c, id (f c) = id c.
Hypothesis f_other : forall c, id c <> k ->
    f c = with_children c (map f (children c)).

Lemma findNode_node_map : forall c,
    findNode_node k (f c) = option_map f (findNode_node k c).
  Proof.
    induction c as [i q cs nx ny h m conv th IH] using ChatNode_ind'.
    destruct (Z.eqb_spec i k) as [E|E].
    - rewrite (findNode_node_self k (f (mkNode i q cs nx ny h m conv th)))
        by (rewrite f_id; exact E).
      rewrite findNode_node_self by exact E. reflexivity.
    - rewrite f_other by exact E. simpl.
      apply Z.eqb_neq in E. rewrite E.
      induction IH as [|c cs' Hc _ IHcs]; simpl; [reflexivity|].
      rewrite Hc. destruct (findNode_node k c); simpl; [reflexivity|].
      exact IHcs.
  Qed.

Lemma findNode_map : forall t,
    findNode (map f t) k = option_map f (findNode t k).
  Proof.
    induction t as [|c t IH]; simpl; [reflexivity|].
    rewrite findNode_node_map. destruct (findNode_node k c); simpl; [reflexivity|].
    exact IH.
  Qed.
End FindMap.

Lemma findNode_node_id : forall k c n, findNode_node k c = Some n -> id n = k.
Proof.
  intros k c. induction c as [i q cs nx ny h m conv th IH] using ChatNode_ind'.
  intros n. simpl. destruct (Z.eqb_spec i k) as [E|E].
  - intros H. injection H as <-. exact E.
  - induction IH as [|c cs' Hc _ IHcs]; [discriminate|].
    destruct (findNode_node k c) eqn:Ec.
    + intros H. injection H as <-. apply Hc. reflexivity.
    + exact IHcs.
Qed.

Lemma findNode_id : forall t k n, findNode t k = Some n -> id n = k.
Proof.
  induction t as [|c t IH]; intros k n; simpl; [discriminate|].
  destruct (findNode_node k c) eqn:Ec.
  - intros H. injection H as <-. exact (findNode_node_id _ _ _ Ec).
  - apply IH.
Qed.

Ltac other_case :=
  let c := fresh "c" in let E := fresh "E" in
  intros c E; destruct c as [i q cs nx ny h m conv th]; simpl in E; simpl;
  apply Z.eqb_neq in E; rewrite E; try reflexivity.

Lemma findNode_appendMessage : forall t k msg,
  findNode (map (appendMessage k msg) t) k
  = option_map (appendMessage k msg) (findNode t k).
Proof.
  intros t k msg. apply findNode_map.
  - intros [i q cs nx ny h m conv th]. simpl. destruct (Z.eqb i k); reflexivity.
  - other_case.
Qed.

Lemma findNode_placeholder : forall t k,
  findNode (map (addAssistantPlaceholder k) t) k
  = option_map (addAssistantPlaceholder k) (findNode t k).
Proof.
  intros t k. apply findNode_map.
  - intros [i q cs nx ny h m conv th]. simpl. destruct (Z.eqb i k); reflexivity.
  - other_case.
Qed.

Lemma findNode_chunk : forall t k chunk,
  findNode (map (appendResponseChunk k chunk) t) k
  = option_map (appendResponseChunk k chunk) (findNode t k).
Proof.
  intros t k chunk. apply findNode_map.
  - intros [i q cs nx ny h m conv th]. simpl.
    destruct (Z.eqb i k); [|reflexivity].
    destruct (last_msg conv) as [lm|]; [|reflexivity].
    destruct (role_eqb (role_of lm) assistant); reflexivity.
  - other_case.
Qed.

Lemma last_msg_app : forall l a, last_msg (l ++ [a]) = Some a.
Proof.
  induction l as [|b l IH]; intros a; [reflexivity|].
  simpl. rewrite IH. destruct (l ++ [a]) eqn:E; [destruct l; discriminate|reflexivity].
Qed.

Lemma appendResponseChunk_conv : forall k chunk n pre s,
  id n = k -> conversation n = pre ++ [mkMsg assistant s] ->
  id (appendResponseChunk k chunk n) = k /\
  conversation (appendResponseChunk k chunk n)
  = pre ++ [mkMsg assistant (s ++ chunk)].
Proof.
  intros k chunk [i q cs nx ny h m conv th] pre s E Hc. simpl in E, Hc. subst.
  simpl. rewrite Z.eqb_refl, last_msg_app. simpl. split; [reflexivity|].
  rewrite removelast_last. reflexivity.
Qed.

Lemma readLoop_appends : forall reads t k n pre s,
  findNode t k = Some n -> conversation n = pre ++ [mkMsg assistant s] ->
  exists n', findNode (readLoop k reads t) k = Some n' /\
    conversation n' = pre ++ [mkMsg assistant (s ++ List.concat (map decode reads))].
Proof.
  induction reads as [|v reads IH]; intros t k n pre s Hf Hc.
  - exists n. simpl. rewrite app_nil_r. split; assumption.
  - simpl. pose proof (findNode_id _ _ _ Hf) as Hid.
    destruct (appendResponseChunk_conv k (decode v) n pre s Hid Hc) as [_ Hc'].
    destruct (IH (map (appendResponseChunk k (decode v)) t) k
                 (appendResponseChunk k (decode v) n) pre (s ++ decode v))
      as [n' [Hf' Hc'']].
    + rewrite findNode_chunk, Hf. reflexivity.
    + exact Hc'.
    + exists n'. split; [exact Hf'|]. rewrite Hc'', app_assoc. reflexivity.
Qed.

(** C9 (confirmed).  Once the request succeeds, the user message and the
    empty assistant placeholder are appended to the node, and every read
    of the body appends its chunk to that placeholder at once, in the
    order of the reads: the node ends with the user message followed by
    one assistant message whose content is the concatenation of the
    chunks in receipt order. *)
Theorem sendMessage_stream_order : forall (t : Tree) chatId message reads n,
  findNode t chatId = Some n ->
  exists n', findNode (sendMessageOk chatId message reads t) chatId = Some n' /\
    conversation n' = conversation n ++
      [mkMsg user message; mkMsg assistant (List.concat (map decode reads))].
Proof.
  intros t k message reads n Hf. unfold sendMessageOk.
  pose proof (findNode_id _ _ _ Hf) as Hid.
  destruct n as [i q cs nx ny h m conv th]. simpl in Hid. subst i.
  destruct (readLoop_appends reads (map (addAssistantPlaceholder k)
              (map (appendMessage k message) t)) k
              (addAssistantPlaceholder k (appendMessage k message
                 (mkNode k q cs nx ny h m conv th)))
              (conv ++ [mkMsg user message]) [])
    as [n' [Hf' Hc']].
  - rewrite findNode_placeholder, findNode_appendMessage, Hf. reflexivity.
  - simpl. rewrite Z.eqb_refl. simpl. rewrite Z.eqb_refl. reflexivity.
  - exists n'. split; [exact Hf'|]. rewrite Hc'. simpl. rewrite <- app_assoc.
    reflexivity.
Qed.

(** The example of the spec: chunks "Hel", "lo", " world" on the root of
    the initial tree. *)
Lemma sendMessage_stream_order_witness :
  findNode initialTree 1 = Some (hd (leaf 0) initialTree) /\
  exists n', findNode (sendMessageOk 1 (js "hi")
       [Some (js "Hel"); Some (js "lo"); Some (js " world"); None]
       initialTree) 1 = Some n' /\
    conversation n' = [mkMsg user (js "hi"); mkMsg assistant (js "Hello world")].
Proof.
  assert (Hf : findNode initialTree 1 = Some (hd (leaf 0) initialTree))
    by reflexivity.
  split; [exact Hf|].
  exact (sendMessage_stream_order initialTree 1 (js "hi")
           [Some (js "Hel"); Some (js "lo"); Some (js " world"); None] _ Hf).
Defined.

(** ** Layout: general lemmas *)

Lemma forEachRoot_eq : forall f l,
  forEachRoot f l = (map (fun c => fst (f c)) l, existsb (fun c => snd (f c)) l).
Proof.
  intros f. induction l as [|c l IH]; [reflexivity|].
  simpl. destruct (f c) as [c' b]. rewrite IH. reflexivity.
Qed.

Lemma map_skel_inv : forall (f : ChatNode -> Qc) l,
  Forall (fun c => f (skel c) = f c) l -> map f (map skel l) = map f l.
Proof.
  intros f l H. rewrite map_map. apply map_ext_in. intros c Hc.
  rewrite Forall_forall in H. apply H, Hc.
Qed.

Lemma skel_getSubtreeHeight : forall n, getSubtreeHeight (skel n) = getSubtreeHeight n.
Proof.
  induction n as [i q cs nx ny h m conv th IH] using ChatNode_ind'.
  pose proof (map_skel_inv _ _ IH) as E.
  destruct cs as [|c cs']; [reflexivity|].
  simpl in E |- *. rewrite E. reflexivity.
Qed.

Lemma skel_getSubtreeWidth : forall n, getSubtreeWidth (skel n) = getSubtreeWidth n.
Proof.
  induction n as [i q cs nx ny h m conv th IH] using ChatNode_ind'.
  pose proof (map_skel_inv _ _ IH) as E.
  destruct cs as [|c cs']; [reflexivity|].
  simpl in E |- *. rewrite E. reflexivity.
Qed.

Lemma skel_height : forall n, height (skel n) = height n.
Proof. intros [i q cs nx ny h m conv th]. reflexivity. Qed.

Lemma skel_manual : forall n, manualPosition (skel n) = manualPosition n.
Proof. intros [i q cs nx ny h m conv th]. reflexivity. Qed.

Lemma skel_id : forall n, id (skel n) = id n.
Proof. intros [i q cs nx ny h m conv th]. reflexivity. Qed.

Lemma skel_children : forall n, children (skel n) = map skel (children n).
Proof. intros [i q cs nx ny h m conv th]. reflexivity. Qed.

(** What the layout computes from a child depends on its skeleton only. *)
Lemma childPos_skel : forall mode nx ny h off c c', skel c' = skel c ->
  childPos mode nx ny h off c' = childPos mode nx ny h off c.
Proof.
  intros mode nx ny h off c c' E. destruct mode; simpl.
  - rewrite <- (skel_getSubtreeHeight c'), <- (skel_height c'), E,
            skel_getSubtreeHeight, skel_height. reflexivity.
  - rewrite <- (skel_getSubtreeWidth c'), E, skel_getSubtreeWidth. reflexivity.
Qed.

Lemma offsetStep_skel : forall mode c c', skel c' = skel c ->
  offsetStep mode c' = offsetStep mode c.
Proof.
  intros mode c c' E. destruct mode; simpl.
  - rewrite <- (skel_getSubtreeHeight c'), E, skel_getSubtreeHeight. reflexivity.
  - rewrite <- (skel_getSubtreeWidth c'), E, skel_getSubtreeWidth. reflexivity.
Qed.

Lemma startOffset_skel : forall mode nx ny h cs cs', map skel cs' = map skel cs ->
  startOffset mode nx ny h cs' = startOffset mode nx ny h cs.
Proof.
  intros mode nx ny h cs cs' E. destruct mode; simpl.
  - assert (F : forall l, map getSubtreeHeight l = map getSubtreeHeight (map skel l)).
    { intros l. rewrite map_map. apply map_ext. intros c. symmetry.
      apply skel_getSubtreeHeight. }
    rewrite (F cs'), (F cs), E. reflexivity.
  - assert (F : forall l, map getSubtreeWidth l = map getSubtreeWidth (map skel l)).
    { intros l. rewrite map_map. apply map_ext. intros c. symmetry.
      apply skel_getSubtreeWidth. }
    rewrite (F cs'), (F cs), E. reflexivity.
Qed.

Lemma neq_refl : forall a, neq a a = false.
Proof. intros a. unfold neq, Qc_eq_bool. destruct (Qc_eq_dec a a); [reflexivity|congruence]. Qed.

Lemma place_idem : forall prop m nx ny nx' ny' b,
  place prop m nx ny = (nx', ny', b) -> place prop m nx' ny' = (nx', ny', false).
Proof.
  intros [[a c]|] m nx ny nx' ny' b; simpl.
  - destruct (negb m && (neq nx a || neq ny c)) eqn:E; intros H; injection H as <- <- <-.
    + destruct m; simpl in E; [discriminate|]. simpl. rewrite !neq_refl. reflexivity.
    + rewrite E. reflexivity.
  - intros H. injection H as <- <- <-. reflexivity.
Qed.

Lemma place_false : forall prop m nx ny nx' ny',
  place prop m nx ny = (nx', ny', false) -> nx' = nx /\ ny' = ny.
Proof.
  intros [[a c]|] m nx ny nx' ny'; simpl.
  - destruct (negb m && (neq nx a || neq ny c)); intros H;
      [discriminate H|injection H as <- <-; split; reflexivity].
  - intros H. injection H as <- <-. split; reflexivity.
Qed.

Section PlaceChildren.
Variable rec : option (Qc * Qc) -> ChatNode -> ChatNode * bool.
Variable mode : layoutModeT.
Variables nx ny h : Qc.

Lemma placeChildren_shape : forall l,
    Forall (fun c => forall prop, skel (fst (rec prop c)) = skel c) l ->
    forall off, map skel (fst (placeChildren rec mode nx ny h off l)) = map skel l.
  Proof.
    induction l as [|c l IH]; intros Hl off; [reflexivity|].
    inversion Hl as [|? ? Hc Hl']; subst. simpl.
    destruct (rec _ c) as [c' ch1] eqn:Ec.
    destruct (placeChildren rec mode nx ny h _ l) as [l'' ch2] eqn:El.
    simpl. f_equal.
    - specialize (Hc (Some (childPos mode nx ny h off c))). rewrite Ec in Hc. exact Hc.
    - specialize (IH Hl' (off + offsetStep mode c)%Qc). rewrite El in IH. exact IH.
  Qed.

Lemma placeChildren_idem : forall l,
    Forall (fun c => forall prop,
              rec prop (fst (rec prop c)) = (fst (rec prop c), false) /\
              skel (fst (rec prop c)) = skel c) l ->
    forall off,
      placeChildren rec mode nx ny h off (fst (placeChildren rec mode nx ny h off l))
      = (fst (placeChildren rec mode nx ny h off l), false).
  Proof.
    induction l as [|c l IH]; intros Hl off; [reflexivity|].
    inversion Hl as [|? ? Hc Hl']; subst. simpl.
    destruct (rec _ c) as [c' ch1] eqn:Ec.
    destruct (placeChildren rec mode nx ny h _ l) as [l'' ch2] eqn:El.
    simpl.
    destruct (Hc (Some (childPos mode nx ny h off c))) as [Hi Hs].
    rewrite Ec in Hi, Hs. simpl in Hi, Hs.
    rewrite (childPos_skel _ _ _ _ _ c c' Hs), Hi.
    rewrite (offsetStep_skel _ c c' Hs).
    specialize (IH Hl' (off + offsetStep mode c)%Qc). rewrite El in IH. simpl in IH.
    rewrite IH. reflexivity.
  Qed.

Lemma placeChildren_nochange : forall l,
    Forall (fun c => forall prop c', rec prop c = (c', false) -> c' = c) l ->
    forall off l', placeChildren rec mode nx ny h off l = (l', false) -> l' = l.
  Proof.
    induction l as [|c l IH]; intros Hl off l' H.
    - simpl in H. injection H as <-. reflexivity.
    - inversion Hl as [|? ? Hc Hl']; subst. simpl in H.
      destruct (rec _ c) as [c' ch1] eqn:Ec.
      destruct (placeChildren rec mode nx ny h _ l) as [l'' ch2] eqn:El.
      injection H as <- Hb. apply orb_false_iff in Hb as [-> ->].
      rewrite (Hc _ _ Ec), (IH Hl' _ _ El). reflexivity.
  Qed.
End PlaceChildren.

Lemma positionChildren_shape : forall mode n prop,
  skel (fst (positionChildren mode prop n)) = skel n.
Proof.
  intros mode n. induction n as [i q cs nx ny h m conv th IH] using ChatNode_ind'.
  intros prop. simpl. destruct (place prop m nx ny) as [[nx' ny'] ch0].
  destruct cs as [|c cs0]; [reflexivity|].
  destruct (placeChildren _ mode nx' ny' h _ (c :: cs0)) as [cs' ch] eqn:E.
  simpl. f_equal.
  pose proof (placeChildren_shape (positionChildren mode) mode nx' ny' h (c :: cs0)
                IH (startOffset mode nx' ny' h (c :: cs0))) as Hs.
  rewrite E in Hs. exact Hs.
Qed.

Lemma positionChildren_idem : forall mode n prop,
  positionChildren mode prop (fst (positionChildren mode prop n))
  = (fst (positionChildren mode prop n), false).
Proof.
  intros mode n. induction n as [i q cs nx ny h m conv th IH] using ChatNode_ind'.
  intros prop. simpl. destruct (place prop m nx ny) as [[nx' ny'] ch0] eqn:Ep.
  pose proof (place_idem _ _ _ _ _ _ _ Ep) as Hp.
  destruct cs as [|c cs0]; [simpl; rewrite Hp; reflexivity|].
  assert (HF : Forall (fun c => forall prop,
              positionChildren mode prop (fst (positionChildren mode prop c))
              = (fst (positionChildren mode prop c), false) /\
              skel (fst (positionChildren mode prop c)) = skel c) (c :: cs0)).
  { rewrite Forall_forall in IH |- *. intros d Hd prop'. split.
    - apply IH, Hd.
    - apply positionChildren_shape. }
  pose proof (placeChildren_shape (positionChildren mode) mode nx' ny' h (c :: cs0)
                (Forall_impl _ (fun d Hd prop' => proj2 (Hd prop')) HF)
                (startOffset mode nx' ny' h (c :: cs0))) as Hs.
  pose proof (placeChildren_idem (positionChildren mode) mode nx' ny' h (c :: cs0)
                HF (startOffset mode nx' ny' h (c :: cs0))) as Hi.
  destruct (placeChildren _ mode nx' ny' h _ (c :: cs0)) as [cs' ch] eqn:E.
  simpl in Hs, Hi |- *.
  destruct cs' as [|c' cs0']; [discriminate Hs|].
  rewrite Hp. rewrite (startOffset_skel mode nx' ny' h (c :: cs0) (c' :: cs0') Hs).
  rewrite Hi. reflexivity.
Qed.

Lemma positionChildren_nochange : forall mode n prop n',
  positionChildren mode prop n = (n', false) -> n' = n.
Proof.
  intros mode n. induction n as [i q cs nx ny h m conv th IH] using ChatNode_ind'.
  intros prop n'. simpl. destruct (place prop m nx ny) as [[nx' ny'] ch0] eqn:Ep.
  destruct cs as [|c cs0].
  - intros H. injection H as <- ->. destruct (place_false _ _ _ _ _ _ Ep) as [-> ->].
    reflexivity.
  - destruct (placeChildren _ mode nx' ny' h _ (c :: cs0)) as [cs' ch] eqn:E.
    intros H. injection H as <- Hb. apply orb_false_iff in Hb as [-> ->].
    destruct (place_false _ _ _ _ _ _ Ep) as [-> ->].
    rewrite (placeChildren_nochange (positionChildren mode) mode nx ny h (c :: cs0)
               IH _ _ E).
    reflexivity.
Qed.

Lemma Qc_eq_bool_refl : forall a, Qc_eq_bool a a = true.
Proof. intros a. unfold Qc_eq_bool. destruct (Qc_eq_dec a a); [reflexivity|congruence]. Qed.

Lemma updateHeights_stable : forall meas n,
  heights_stable meas (fst (updateHeights_node meas n)) = true.
Proof.
  intros meas n. induction n as [i q cs nx ny h m conv th IH] using ChatNode_ind'.
  simpl. rewrite forEachRoot_eq.
  match goal with |- context [let '(_, _) := ?e in _] => destruct e as [h' ch0] eqn:Eh end.
  simpl. apply andb_true_iff. split.
  - unfold measured_ok. simpl.
    destruct (meas i) as [ch|]; [|reflexivity].
    destruct (0 ?= ch)%Qc; simpl in Eh |- *; try reflexivity.
    destruct (neq h ch) eqn:En; injection Eh as <- _.
    + apply Qc_eq_bool_refl.
    + unfold neq in En. apply negb_false_iff in En. exact En.
  - apply forallb_forall. intros c Hc. apply in_map_iff in Hc as [d [<- Hd]].
    rewrite Forall_forall in IH. apply IH, Hd.
Qed.

Lemma updateHeights_of_stable : forall meas n,
  heights_stable meas n = true -> updateHeights_node meas n = (n, false).
Proof.
  intros meas n. induction n as [i q cs nx ny h m conv th IH] using ChatNode_ind'.
  simpl. intros H. apply andb_true_iff in H as [Hok Hcs].
  assert (Hc : forEachRoot (updateHeights_node meas) cs = (cs, false)).
  { rewrite forEachRoot_eq. rewrite forallb_forall in Hcs.
    rewrite Forall_forall in IH.
    assert (E : forall d, In d cs -> updateHeights_node meas d = (d, false))
      by (intros d Hd; apply IH; [exact Hd|apply Hcs, Hd]).
    f_equal.
    - rewrite <- (map_id cs) at 2. apply map_ext_in. intros d Hd. rewrite E by exact Hd.
      reflexivity.
    - destruct (existsb _ cs) eqn:Ex; [|reflexivity].
      apply existsb_exists in Ex as [d [Hd Hf]].
      rewrite E in Hf by exact Hd. discriminate. }
  rewrite Hc. unfold measured_ok in Hok. simpl in Hok.
  destruct (meas i) as [ch|]; [|reflexivity].
  destruct (0 ?= ch)%Qc; simpl; try reflexivity.
  unfold Qc_eq_bool in Hok. destruct (Qc_eq_dec h ch) as [->|]; [|discriminate].
  rewrite neq_refl. reflexivity.
Qed.

Lemma heights_stable_skel : forall meas n,
  heights_stable meas (skel n) = heights_stable meas n.
Proof.
  intros meas n. induction n as [i q cs nx ny h m conv th IH] using ChatNode_ind'.
  simpl. f_equal. induction IH as [|c cs' Hc _ IHcs]; [reflexivity|].
  simpl. rewrite Hc, IHcs. reflexivity.
Qed.

Lemma updateHeights_nochange : forall meas n n',
  updateHeights_node meas n = (n', false) -> n' = n.
Proof.
  intros meas n. induction n as [i q cs nx ny h m conv th IH] using ChatNode_ind'.
  intros n'. simpl. rewrite forEachRoot_eq.
  match goal with |- context [let '(_, _) := ?e in _] => destruct e as [h' ch0] eqn:Eh end.
  intros H. injection H as <- Hb. apply orb_false_iff in Hb as [-> Hex].
  assert (Hh : h' = h).
  { destruct (meas i) as [ch|]; [|injection Eh as <-; reflexivity].
    destruct ((match (0 ?= ch)%Qc with Lt => true | _ => false end) && neq h ch);
      [discriminate Eh|injection Eh as <-; reflexivity]. }
  subst h'. f_equal.
  rewrite <- (map_id cs) at 2. apply map_ext_in. intros d Hd.
  rewrite Forall_forall in IH. apply (IH d Hd).
  destruct (updateHeights_node meas d) as [d' b] eqn:Ed. simpl.
  destruct b; [|reflexivity].
  exfalso. assert (Hin : existsb (fun c => snd (updateHeights_node meas c)) cs = true).
  { apply existsb_exists. exists d. rewrite Ed. split; [exact Hd|reflexivity]. }
  congruence.
Qed.

Lemma positionChildren_stable : forall meas mode prop n,
  heights_stable meas (fst (positionChildren mode prop n)) = heights_stable meas n.
Proof.
  intros. rewrite <- heights_stable_skel, positionChildren_shape, heights_stable_skel.
  reflexivity.
Qed.

Lemma layoutEffect_eq : forall meas mode t,
  layoutEffect meas mode t =
  (map (fun c => fst (positionChildren mode None c))
       (map (fun c => fst (updateHeights_node meas c)) t),
   existsb (fun c => snd (updateHeights_node meas c)) t
   || existsb (fun c => snd (positionChildren mode None c))
        (map (fun c => fst (updateHeights_node meas c)) t)).
Proof.
  intros meas [|] t; unfold layoutEffect, layoutOf, layoutHorizontal, layoutVertical;
    rewrite !forEachRoot_eq; reflexivity.
Qed.

(** C3 (confirmed).  With the same measured heights, the layout effect
    run on the tree it has just produced (or left alone) finds nothing
    to do: every node keeps its position and height and [hasChanges]
    stays false, in either layout mode and for every tree. *)
Theorem layout_idempotent : forall meas mode (t : Tree),
  let t1 := runLayout meas mode t in
  layoutEffect meas mode t1 = (t1, false).
Proof.
  intros meas mode t t1.
  assert (Key : forall t0,
    layoutEffect meas mode (fst (layoutEffect meas mode t0))
    = (fst (layoutEffect meas mode t0), false)).
  { intros t0. rewrite layoutEffect_eq. simpl. rewrite layoutEffect_eq.
    set (t2 := map (fun c => fst (positionChildren mode None c))
                   (map (fun c => fst (updateHeights_node meas c)) t0)).
    assert (Hst : forall c, In c t2 -> updateHeights_node meas c = (c, false)).
    { intros c Hc. apply updateHeights_of_stable. unfold t2 in Hc.
      rewrite map_map in Hc. apply in_map_iff in Hc as [d [<- _]].
      rewrite positionChildren_stable. apply updateHeights_stable. }
    assert (E1 : map (fun c => fst (updateHeights_node meas c)) t2 = t2).
    { rewrite <- (map_id t2) at 2. apply map_ext_in. intros c Hc.
      rewrite Hst by exact Hc. reflexivity. }
    assert (E2 : existsb (fun c => snd (updateHeights_node meas c)) t2 = false).
    { destruct (existsb (fun c => snd (updateHeights_node meas c)) t2) eqn:Ex;
        [|reflexivity].
      apply existsb_exists in Ex as [c [Hc Hb]]. rewrite Hst in Hb by exact Hc.
      discriminate. }
    cbn [fst]. rewrite E1, E2.
    assert (Hpc : forall c, In c t2 ->
              positionChildren mode None c = (c, false)).
    { intros c Hc. unfold t2 in Hc. rewrite map_map in Hc.
      apply in_map_iff in Hc as [d [<- _]]. apply positionChildren_idem. }
    assert (E3 : map (fun c => fst (positionChildren mode None c)) t2 = t2).
    { rewrite <- (map_id t2) at 2. apply map_ext_in. intros c Hc.
      rewrite Hpc by exact Hc. reflexivity. }
    assert (E4 : existsb (fun c => snd (positionChildren mode None c)) t2 = false).
    { destruct (existsb (fun c => snd (positionChildren mode None c)) t2) eqn:Ex;
        [|reflexivity].
      apply existsb_exists in Ex as [c [Hc Hb]]. rewrite Hpc in Hb by exact Hc.
      discriminate. }
    rewrite E3, E4. reflexivity. }
  unfold t1, runLayout.
  destruct (layoutEffect meas mode t) as [t' b] eqn:E.
  destruct b.
  - change t' with (fst (t', true)). rewrite <- E. apply Key.
  - (* no change was reported: the effect computed [t] itself *)
    assert (Ht : t' = t).
    { pose proof E as E'. rewrite layoutEffect_eq in E'. clear E. rename E' into E.
      injection E as Et Hb. apply orb_false_iff in Hb as [Hb1 Hb2].
      assert (Hu : forall l, existsb (fun c => snd (updateHeights_node meas c)) l = false ->
                map (fun c => fst (updateHeights_node meas c)) l = l).
      { induction l as [|c l IHl]; simpl; [reflexivity|].
        intros Hx. apply orb_false_iff in Hx as [Hx1 Hx2].
        rewrite IHl by exact Hx2. f_equal.
        destruct (updateHeights_node meas c) as [c' b'] eqn:Ec. simpl in Hx1 |- *.
        subst b'. exact (updateHeights_nochange _ _ _ Ec). }
      assert (Hp : forall l, existsb (fun c => snd (positionChildren mode None c)) l = false ->
                map (fun c => fst (positionChildren mode None c)) l = l).
      { induction l as [|c l IHl]; simpl; [reflexivity|].
        intros Hx. apply orb_false_iff in Hx as [Hx1 Hx2].
        rewrite IHl by exact Hx2. f_equal.
        destruct (positionChildren mode None c) as [c' b'] eqn:Ec. simpl in Hx1 |- *.
        subst b'. exact (positionChildren_nochange _ _ _ _ Ec). }
      rewrite Hu in Hb2, Et by exact Hb1. rewrite <- Et. apply Hp, Hb2. }
    rewrite E, Ht. reflexivity.
Qed.

(** ** Layout: where each child goes *)

Section PlaceChildrenPos.
Variable rec : option (Qc * Qc) -> ChatNode -> ChatNode * bool.
Variable mode : layoutModeT.
Variables nx ny h : Qc.

Lemma placeChildren_nth : forall l off j c',
    nth_error (fst (placeChildren rec mode nx ny h off l)) j = Some c' ->
    exists c, nth_error l j = Some c /\
      c' = fst (rec (Some (childPos mode nx ny h (off + prefixStep mode j l)%Qc c)) c).
  Proof.
    induction l as [|c l IH]; intros off j c' H; simpl in H.
    - destruct j; discriminate H.
    - destruct (rec _ c) as [c1 ch1] eqn:Ec.
      destruct (placeChildren rec mode nx ny h _ l) as [l'' ch2] eqn:El.
      destruct j as [|j]; simpl in H |- *.
      + injection H as <-. exists c. split; [reflexivity|].
        rewrite Qcplus_0_r, Ec. reflexivity.
      + specialize (IH (off + offsetStep mode c)%Qc j c'). rewrite El in IH.
        destruct (IH H) as [d [Hd E]]. exists d. split; [exact Hd|].
        rewrite E, Qcplus_assoc. reflexivity.
  Qed.

Lemma placeChildren_in : forall l off c, In c l ->
    exists prop, In (fst (rec prop c)) (fst (placeChildren rec mode nx ny h off l)).
  Proof.
    induction l as [|d l IH]; intros off c Hc; [destruct Hc|].
    simpl. destruct (rec _ d) as [d1 ch1] eqn:Ed.
    destruct (placeChildren rec mode nx ny h _ l) as [l'' ch2] eqn:El.
    destruct Hc as [<-|Hc].
    - eexists. rewrite Ed. simpl. left. reflexivity.
    - destruct (IH (off + offsetStep mode d)%Qc c Hc) as [prop Hp].
      rewrite El in Hp. exists prop. simpl. right. exact Hp.
  Qed.

Lemma placeChildren_in_inv : forall l off c',
    In c' (fst (placeChildren rec mode nx ny h off l)) ->
    exists prop c, In c l /\ c' = fst (rec prop c).
  Proof.
    induction l as [|d l IH]; intros off c' Hc; [destruct Hc|].
    simpl in Hc. destruct (rec _ d) as [d1 ch1] eqn:Ed.
    destruct (placeChildren rec mode nx ny h _ l) as [l'' ch2] eqn:El.
    destruct Hc as [<-|Hc].
    - eexists. exists d. split; [left; reflexivity|]. rewrite Ed. reflexivity.
    - specialize (IH (off + offsetStep mode d)%Qc c'). rewrite El in IH.
      destruct (IH Hc) as [prop [c [Hin E]]]. exists prop, c.
      split; [right; exact Hin|exact E].
  Qed.
End PlaceChildrenPos.

Lemma positionChildren_unfold : forall mode prop i q cs nx ny h m conv th nx' ny' b,
  place prop m nx ny = (nx', ny', b) ->
  fst (positionChildren mode prop (mkNode i q cs nx ny h m conv th)) =
  mkNode i q (match cs with
              | [] => []
              | _ :: _ => fst (placeChildren (positionChildren mode) mode nx' ny' h
                                 (startOffset mode nx' ny' h cs) cs)
              end) nx' ny' h m conv th.
Proof.
  intros mode prop i q cs nx ny h m conv th nx' ny' b Ep. simpl. rewrite Ep.
  destruct cs as [|c cs0]; [reflexivity|].
  destruct (placeChildren _ _ _ _ _ _ _) as [cs' ch]. reflexivity.
Qed.

Lemma place_nonmanual : forall a b nx ny nx' ny' ch,
  place (Some (a, b)) false nx ny = (nx', ny', ch) -> nx' = a /\ ny' = b.
Proof.
  intros a b nx ny nx' ny' ch. simpl.
  destruct (neq nx a) eqn:Ea; destruct (neq ny b) eqn:Eb; simpl;
    intros H; injection H as <- <- _; try (split; reflexivity).
  unfold neq, Qc_eq_bool in Ea, Eb.
  destruct (Qc_eq_dec nx a); destruct (Qc_eq_dec ny b); try discriminate.
  split; assumption.
Qed.

Lemma prefixStep_skel : forall mode j l l', map skel l' = map skel l ->
  prefixStep mode j l' = prefixStep mode j l.
Proof.
  intros mode j l. revert j. induction l as [|c l IH]; intros j l' E.
  - destruct l'; [reflexivity|discriminate E].
  - destruct l' as [|c' l']; [discriminate E|]. simpl in E. injection E as Ec El.
    destruct j; [reflexivity|]. simpl.
    rewrite (offsetStep_skel mode c c' Ec), (IH j l' El). reflexivity.
Qed.

Lemma place_nonmanual_fst : forall P nx ny, fst (place (Some P) false nx ny) = P.
Proof.
  intros [a b] nx ny. simpl.
  destruct (neq nx a || neq ny b) eqn:E; [reflexivity|].
  apply orb_false_iff in E as [Ea Eb]. unfold neq in Ea, Eb.
  apply negb_false_iff in Ea, Eb. unfold Qc_eq_bool in Ea, Eb.
  destruct (Qc_eq_dec nx a) as [->|]; [|discriminate].
  destruct (Qc_eq_dec ny b) as [->|]; [reflexivity|discriminate].
Qed.

Lemma place_manual : forall prop nx ny, place prop true nx ny = (nx, ny, false).
Proof. intros [[a b]|] nx ny; reflexivity. Qed.

Lemma positionChildren_pos : forall mode prop n,
  (x (fst (positionChildren mode prop n)), y (fst (positionChildren mode prop n)))
  = fst (place prop (manualPosition n) (x n) (y n)).
Proof.
  intros mode prop [i q cs nx ny h m conv th]. cbn [manualPosition x y].
  destruct (place prop m nx ny) as [[nx' ny'] b] eqn:Ep.
  rewrite (positionChildren_unfold mode prop i q cs nx ny h m conv th nx' ny' b Ep).
  reflexivity.
Qed.

Lemma positionChildren_slot : forall mode prop n j c',
  nth_error (children (fst (positionChildren mode prop n))) j = Some c' ->
  manualPosition c' = false ->
  (x c', y c') = slotPos mode (fst (positionChildren mode prop n)) j c'.
Proof.
  intros mode prop [i q cs nx ny h m conv th] j c' Hj Hm.
  destruct (place prop m nx ny) as [[nx' ny'] b] eqn:Ep.
  rewrite (positionChildren_unfold mode prop i q cs nx ny h m conv th nx' ny' b Ep) in *.
  destruct cs as [|c0 cs0]; [destruct j; discriminate Hj|].
  cbn [children] in Hj. unfold slotPos. cbn [x y height children].
  destruct (placeChildren_nth (positionChildren mode) mode nx' ny' h (c0 :: cs0) _ j c' Hj)
    as [c [Hc E]].
  assert (Hs : map skel (fst (placeChildren (positionChildren mode) mode nx' ny' h
                 (startOffset mode nx' ny' h (c0 :: cs0)) (c0 :: cs0))) = map skel (c0 :: cs0)).
  { apply placeChildren_shape. apply Forall_forall. intros d _ p.
    apply positionChildren_shape. }
  rewrite (startOffset_skel _ _ _ _ _ _ Hs), (prefixStep_skel _ _ _ _ Hs).
  assert (Hsc : skel c' = skel c) by (rewrite E; apply positionChildren_shape).
  rewrite (childPos_skel _ _ _ _ _ _ _ Hsc).
  assert (Hmc : manualPosition c = false)
    by (rewrite <- skel_manual, <- Hsc, skel_manual; exact Hm).
  rewrite E, positionChildren_pos, Hmc, place_nonmanual_fst. reflexivity.
Qed.

Lemma in_all_nodes : forall c l p, In c l -> In p (all_nodes_node c) -> In p (all_nodes l).
Proof.
  intros c l p Hc Hp. unfold all_nodes. apply in_concat.
  exists (all_nodes_node c). split; [apply in_map, Hc|exact Hp].
Qed.

Lemma in_all_nodes_inv : forall l p, In p (all_nodes l) ->
  exists c, In c l /\ In p (all_nodes_node c).
Proof.
  intros l p H. unfold all_nodes in H. apply in_concat in H as [ps [Hps Hp]].
  apply in_map_iff in Hps as [c [<- Hc]]. exists c. split; assumption.
Qed.

Lemma positionChildren_all_inv : forall mode n prop p,
  In p (all_nodes_node (fst (positionChildren mode prop n))) ->
  exists prop' n0, p = fst (positionChildren mode prop' n0).
Proof.
  intros mode n. induction n as [i q cs nx ny h m conv th IH] using ChatNode_ind'.
  intros prop p Hp.
  destruct (place prop m nx ny) as [[nx' ny'] b] eqn:Ep.
  pose proof (positionChildren_unfold mode prop i q cs nx ny h m conv th nx' ny' b Ep) as U.
  rewrite U, all_nodes_node_eq in Hp. rewrite <- U in Hp.
  destruct Hp as [<-|Hp]; [exists prop, (mkNode i q cs nx ny h m conv th); reflexivity|].
  rewrite U in Hp. cbn [children] in Hp.
  destruct cs as [|c0 cs0]; [destruct Hp|].
  apply in_all_nodes_inv in Hp as [c'' [Hc'' Hp]].
  destruct (placeChildren_in_inv _ _ _ _ _ _ _ _ Hc'') as [prop1 [c [Hc ->]]].
  rewrite Forall_forall in IH. exact (IH c Hc prop1 p Hp).
Qed.

Lemma positionChildren_in : forall mode n prop p,
  In p (all_nodes_node n) ->
  exists prop', In (fst (positionChildren mode prop' p))
                   (all_nodes_node (fst (positionChildren mode prop n))).
Proof.
  intros mode n. induction n as [i q cs nx ny h m conv th IH] using ChatNode_ind'.
  intros prop p Hp.
  rewrite all_nodes_node_eq in Hp. cbn [children] in Hp.
  destruct Hp as [<-|Hp]; [exists prop; rewrite all_nodes_node_eq; left; reflexivity|].
  destruct (place prop m nx ny) as [[nx' ny'] b] eqn:Ep.
  rewrite (positionChildren_unfold mode prop i q cs nx ny h m conv th nx' ny' b Ep).
  apply in_all_nodes_inv in Hp as [c [Hc Hp]].
  rewrite Forall_forall in IH.
  destruct cs as [|c0 cs0]; [destruct Hc|].
  destruct (placeChildren_in (positionChildren mode) mode nx' ny' h _
              (startOffset mode nx' ny' h (c0 :: cs0)) c Hc) as [prop1 Hin].
  destruct (IH c Hc prop1 p Hp) as [prop' Hp'].
  exists prop'. rewrite all_nodes_node_eq. right. cbn [children].
  exact (in_all_nodes _ _ _ Hin Hp').
Qed.

Lemma layoutOf_fst : forall mode t,
  fst (layoutOf mode t) = map (fun r => fst (positionChildren mode None r)) t.
Proof.
  intros [|] t; unfold layoutOf, layoutHorizontal, layoutVertical;
    rewrite forEachRoot_eq; reflexivity.
Qed.

Lemma layoutOf_nodes : forall mode t p,
  In p (all_nodes (fst (layoutOf mode t))) ->
  exists prop n0, p = fst (positionChildren mode prop n0).
Proof.
  intros mode t p Hp. rewrite layoutOf_fst in Hp.
  apply in_all_nodes_inv in Hp as [r [Hr Hp]].
  apply in_map_iff in Hr as [r0 [<- _]].
  exact (positionChildren_all_inv _ _ _ _ Hp).
Qed.

(** Every non-manual child of every node of the laid-out tree sits in its slot. *)
Lemma layoutOf_slots : forall mode t p j c,
  In p (all_nodes (fst (layoutOf mode t))) ->
  nth_error (children p) j = Some c -> manualPosition c = false ->
  (x c, y c) = slotPos mode p j c.
Proof.
  intros mode t p j c Hp Hj Hm.
  destruct (layoutOf_nodes _ _ _ Hp) as [prop [n0 ->]].
  exact (positionChildren_slot _ _ _ _ _ Hj Hm).
Qed.

Lemma two_eq : two = (1 + 1)%Qc.
Proof. apply Qc_is_canon. vm_compute. reflexivity. Qed.

Lemma prefixStep_succ : forall mode l j c, nth_error l j = Some c ->
  prefixStep mode (S j) l = (prefixStep mode j l + offsetStep mode c)%Qc.
Proof.
  intros mode l. induction l as [|d l IH]; intros j c H; [destruct j; discriminate H|].
  destruct j as [|j].
  - simpl in H. injection H as <-. simpl. ring.
  - simpl in H. change (prefixStep mode (S (S j)) (d :: l))
      with (offsetStep mode d + prefixStep mode (S j) l)%Qc.
    rewrite (IH j c H). simpl. ring.
Qed.

(** ** C2: horizontal layout *)

(** C2. In horizontal mode every non-manual child [c] at index [j] of a
    node [p] of the laid-out tree is placed at
    [x = p.x + CARD_WIDTH + HORIZONTAL_SPACING]; its slot (of the height of
    its subtree, the card centred in it) starts at the top of the stack of
    the children's subtree heights separated by VERTICAL_SPACING, a stack
    centred on the parent's vertical centre, and the slot of the next
    non-manual sibling starts VERTICAL_SPACING below the end of this one;
    the parent's subtree height is the max of its own height and that
    stack's height. On [centeringTree] the children land at y = 460 and
    y = 640, x = 725 + 800. *)
Theorem layoutHorizontal_spec : forall t p j c,
  In p (all_nodes (fst (layoutHorizontal t))) ->
  nth_error (children p) j = Some c -> manualPosition c = false ->
  x c = (x p + CARD_WIDTH + HORIZONTAL_SPACING)%Qc /\
  (y c + height c / two - getSubtreeHeight c / two
   = y p + height p / two
     - sum_spaced VERTICAL_SPACING (map getSubtreeHeight (children p)) / two
     + prefixStep horizontal j (children p))%Qc /\
  (forall c2, nth_error (children p) (S j) = Some c2 -> manualPosition c2 = false ->
     y c2 + height c2 / two - getSubtreeHeight c2 / two
     = y c + height c / two + getSubtreeHeight c / two + VERTICAL_SPACING)%Qc /\
  getSubtreeHeight p
  = js_max (height p) (sum_spaced VERTICAL_SPACING (map getSubtreeHeight (children p))) /\
  map (fun n => (this (x n), this (y n))) (all_nodes (fst (layoutHorizontal centeringTree)))
  = [((725 # 1)%Q, (500 # 1)%Q); ((1525 # 1)%Q, (460 # 1)%Q);
     ((1525 # 1)%Q, (640 # 1)%Q)].
Proof.
  intros t p j c Hp Hj Hm.
  assert (Hp' : In p (all_nodes (fst (layoutOf horizontal t)))) by exact Hp.
  pose proof (layoutOf_slots _ _ _ _ _ Hp' Hj Hm) as Hs.
  unfold slotPos, childPos, startOffset in Hs. injection Hs as Hx Hy.
  split; [exact Hx|]. split; [rewrite Hy; ring|]. split.
  - intros c2 Hj2 Hm2.
    pose proof (layoutOf_slots _ _ _ _ _ Hp' Hj2 Hm2) as Hs2.
    pose proof (prefixStep_succ horizontal _ _ _ Hj) as Hps. simpl offsetStep in Hps.
    unfold slotPos in Hs2. rewrite Hps in Hs2.
    unfold childPos, startOffset in Hs2. injection Hs2 as _ Hy2.
    rewrite Hy2, Hy, two_eq. field.
    intros H. apply (f_equal this) in H. vm_compute in H. discriminate H.
  - split; [|vm_compute; reflexivity].
    destruct p as [i q cs nx ny h m conv th]. destruct cs as [|c0 cs0].
    + destruct j; discriminate Hj.
    + reflexivity.
Qed.

Lemma layoutHorizontal_spec_witness :
  exists p c,
    (In p (all_nodes (fst (layoutHorizontal centeringTree))) /\
     nth_error (children p) 0%nat = Some c /\ manualPosition c = false) /\
    x c = (x p + CARD_WIDTH + HORIZONTAL_SPACING)%Qc.
Proof.
  set (p := hd (leaf 0) (fst (layoutHorizontal centeringTree))).
  set (c := hd (leaf 0) (children p)).
  assert (H1 : In p (all_nodes (fst (layoutHorizontal centeringTree))))
    by (vm_compute; left; reflexivity).
  assert (H2 : nth_error (children p) 0%nat = Some c) by (vm_compute; reflexivity).
  assert (H3 : manualPosition c = false) by (vm_compute; reflexivity).
  exists p, c. split; [split; [exact H1|split; [exact H2|exact H3]]|].
  exact (proj1 (layoutHorizontal_spec centeringTree p 0%nat c H1 H2 H3)).
Defined.

(** ** C4: manually positioned nodes *)

(** C4. For either layout mode, every node [p] of the tree whose
    manual-position flag is set appears in the laid-out tree as a node
    [p'] with the same skeleton (id, height, flags, shape) and the same x
    and y, and every non-manual child of [p'] is placed in its slot
    computed from [p']'s position, as for any other parent. *)
Theorem layout_keeps_manual : forall mode t p,
  In p (all_nodes t) -> manualPosition p = true ->
  exists p', In p' (all_nodes (fst (layoutOf mode t))) /\
    skel p' = skel p /\ x p' = x p /\ y p' = y p /\
    (forall j c, nth_error (children p') j = Some c -> manualPosition c = false ->
       (x c, y c) = slotPos mode p' j c).
Proof.
  intros mode t p Hp Hm.
  apply in_all_nodes_inv in Hp as [r [Hr Hp]].
  destruct (positionChildren_in mode r None p Hp) as [prop' Hin].
  exists (fst (positionChildren mode prop' p)). split.
  { rewrite layoutOf_fst.
    apply (in_all_nodes (fst (positionChildren mode None r))); [|exact Hin].
    apply (in_map (fun r0 => fst (positionChildren mode None r0))), Hr. }
  split; [apply positionChildren_shape|].
  pose proof (positionChildren_pos mode prop' p) as E.
  rewrite Hm, place_manual in E. injection E as Ex Ey.
  split; [exact Ex|]. split; [exact Ey|].
  intros j c Hj Hmc. exact (positionChildren_slot _ _ _ _ _ Hj Hmc).
Qed.

Lemma layout_keeps_manual_witness :
  (In manualNode (all_nodes manualTree) /\ manualPosition manualNode = true) /\
  exists p', In p' (all_nodes (fst (layoutOf horizontal manualTree))) /\
    skel p' = skel manualNode /\ x p' = x manualNode /\ y p' = y manualNode /\
    (forall j c, nth_error (children p') j = Some c -> manualPosition c = false ->
       (x c, y c) = slotPos horizontal p' j c).
Proof.
  assert (H1 : In manualNode (all_nodes manualTree)) by (simpl; right; left; reflexivity).
  split; [split; [exact H1|reflexivity]|].
  exact (layout_keeps_manual horizontal manualTree manualNode H1 eq_refl).
Defined.

(** ** C7: the root and deletion *)

Ltac node_id_tac :=
  intros; match goal with n : ChatNode |- _ => destruct n end; simpl;
  repeat match goal with
         | |- context [Z.eqb ?a ?b] => destruct (Z.eqb a b)
         | |- context [match ?l with [] => _ | _ :: _ => _ end] => destruct l
         | |- context [last_msg ?l] => destruct (last_msg l)
         | |- context [role_eqb ?a ?b] => destruct (role_eqb a b)
         end; reflexivity.

Lemma addChild_node_id : forall src nn n, id (addChild_node src nn n) = id n.
Proof. node_id_tac. Qed.

Lemma removeNode_node_id : forall k n, id (removeNode_node k n) = id n.
Proof. intros k [i q cs nx ny h m conv th]. reflexivity. Qed.

Lemma updatePosition_node_id : forall k px py n, id (updatePosition_node k px py n) = id n.
Proof. node_id_tac. Qed.

Lemma appendMessage_id : forall k msg n, id (appendMessage k msg n) = id n.
Proof. node_id_tac. Qed.

Lemma addAssistantPlaceholder_id : forall k n, id (addAssistantPlaceholder k n) = id n.
Proof. node_id_tac. Qed.

Lemma appendResponseChunk_id : forall k s n, id (appendResponseChunk k s n) = id n.
Proof. node_id_tac. Qed.

Lemma setErrorState_id : forall k n, id (setErrorState k n) = id n.
Proof. node_id_tac. Qed.

Lemma updateHeights_node_id : forall meas n, id (fst (updateHeights_node meas n)) = id n.
Proof.
  intros meas [i q cs nx ny h m conv th]. simpl.
  repeat match goal with |- context [let '(_, _) := ?e in _] => destruct e end.
  reflexivity.
Qed.

Lemma positionChildren_id : forall mode prop n, id (fst (positionChildren mode prop n)) = id n.
Proof.
  intros mode prop n. rewrite <- skel_id, positionChildren_shape, skel_id. reflexivity.
Qed.

Lemma runLayout_single : forall meas mode r,
  exists r', runLayout meas mode [r] = [r'] /\ id r' = id r.
Proof.
  intros meas mode r. unfold runLayout. rewrite layoutEffect_eq. simpl.
  destruct (_ || _).
  - eexists. split; [reflexivity|].
    rewrite positionChildren_id, updateHeights_node_id. reflexivity.
  - exists r. split; reflexivity.
Qed.

Lemma applyAction_single : forall a r, enabled a [r] = true ->
  exists r', applyAction a [r] = [r'] /\ id r' = id r.
Proof.
  intros a r He. destruct a; simpl.
  - eexists. split; [reflexivity|apply addChild_node_id].
  - eexists. split; [reflexivity|apply addChild_node_id].
  - simpl in He. rewrite Z.eqb_sym in He. destruct (Z.eqb (id r) chatId); [discriminate He|].
    eexists. split; [reflexivity|apply removeNode_node_id].
  - eexists. split; [reflexivity|apply updatePosition_node_id].
  - eexists. split; [reflexivity|apply appendMessage_id].
  - eexists. split; [reflexivity|apply addAssistantPlaceholder_id].
  - eexists. split; [reflexivity|apply appendResponseChunk_id].
  - eexists. split; [reflexivity|apply setErrorState_id].
  - apply runLayout_single.
Qed.

Lemma runUI_single : forall acts r,
  exists r', runUI acts [r] = [r'] /\ id r' = id r.
Proof.
  induction acts as [|a acts IH]; intros r; [exists r; split; reflexivity|].
  simpl. destruct (enabled a [r]) eqn:He.
  - destruct (applyAction_single a r He) as [r1 [-> E1]].
    destruct (IH r1) as [r2 [E2 Hid]]. exists r2. split; [exact E2|congruence].
  - apply IH.
Qed.

(** C7 (corrected).  [deleteNode] itself does not protect the root:
    applied to the root's id it removes the root, and with it the whole
    tree. *)
Lemma deleteNode_removes_root :
  initialTree <> [] /\ deleteNode (id (hd (leaf 0) initialTree)) initialTree = [].
Proof. split; [discriminate|reflexivity]. Qed.

(** C7 (corrected).  The tree starts with exactly one root, of id 1, and
    every sequence of the actions the UI offers (the delete control being
    hidden for the node whose id is the first root's) keeps exactly one
    root, of id 1: the root is protected by the caller only. *)
Theorem root_protected_by_ui : forall acts,
  exists r, runUI acts initialTree = [r] /\ id r = 1%Z.
Proof.
  intros acts. destruct (runUI_single acts (hd (leaf 0) initialTree)) as [r [E Hid]].
  exists r. split; [exact E|exact Hid].
Qed.

(** ** C8 and C10: the route's answers *)

Lemma catch_not_promptRequired : forall e, Plain.catch e <> promptRequired.
Proof. intros [[s|] msg|]; discriminate. Qed.

Lemma toString_throws_truthy : forall f,
  field_toString_throws f = true -> truthy f = true.
Proof. intros [|[|b|q|s|l|ms]]; simpl; congruence. Qed.

Lemma plain_post_valid : forall body create p q pc c,
  read_body body = inr (p, q, pc, c) -> truthy p = true ->
  Plain.POST body create =
  if field_toString_throws p || field_toString_throws q || field_toString_throws pc
     || (truthy c && negb (iterable c))
  then internalServerError
  else match create with
       | inl e => Plain.catch e
       | inr contents => mkResp 200 (RStream (List.concat (filter truthy_str contents)))
       end.
Proof.
  intros body create p q pc c Hb Hp. unfold Plain.POST. rewrite Hb, Hp.
  pose proof (toString_throws_truthy q) as Tq. pose proof (toString_throws_truthy pc) as Tpc.
  destruct (field_toString_throws p), (field_toString_throws q), (field_toString_throws pc),
    (truthy q), (truthy pc), (truthy c && negb (iterable c)); simpl;
    solve [reflexivity | discriminate (Tq eq_refl) | discriminate (Tpc eq_refl)].
Qed.

Lemma tool_post_valid : forall body call p q pc c,
  read_body body = inr (p, q, pc, c) -> truthy p = true ->
  Tool.POST body call =
  if field_toString_throws p || field_toString_throws q || field_toString_throws pc
  then internalServerError
  else match call with
       | inl _ => internalServerError
       | inr parts => mkResp 200 (RStream (Tool.streamBody parts))
       end.
Proof.
  intros body call p q pc c Hb Hp. unfold Tool.POST. rewrite Hb, Hp.
  pose proof (toString_throws_truthy q) as Tq. pose proof (toString_throws_truthy pc) as Tpc.
  destruct (field_toString_throws p), (field_toString_throws q), (field_toString_throws pc),
    (truthy q), (truthy pc); simpl;
    solve [reflexivity | discriminate (Tq eq_refl) | discriminate (Tpc eq_refl)].
Qed.




(** C10.  In both versions the 400 answer [{"error": "Prompt is
    required"}] is given exactly when the prompt is falsy ([!prompt]):
    an empty string is rejected, and any truthy value, a string or not
    (a number other than 0, [true], an array, an object), passes the
    check. *)
Theorem prompt_check_is_falsiness : forall body create call p q pc c,
  read_body body = inr (p, q, pc, c) ->
  (Plain.POST body create = promptRequired <-> truthy p = false) /\
  (Tool.POST body call = promptRequired <-> truthy p = false) /\
  truthy (JVal (JStr [])) = false /\
  truthy (JVal (JNum 1%Qc)) = true /\ truthy (JVal (JBool true)) = true /\
  truthy (JVal (JArr [])) = true /\ truthy (JVal (JObj [])) = true.
Proof.
  intros body create call p q pc c Hb.
  split; [|split; [|repeat split]].
  - destruct (truthy p) eqn:Hp.
    + rewrite (plain_post_valid _ _ _ _ _ _ Hb Hp). split; [|discriminate].
      destruct (_ || _ || _ || _); [discriminate|].
      destruct create as [e|contents]; [|discriminate].
      intros E. exfalso. exact (catch_not_promptRequired e E).
    + unfold Plain.POST. rewrite Hb, Hp. split; reflexivity.
  - destruct (truthy p) eqn:Hp.
    + rewrite (tool_post_valid _ _ _ _ _ _ Hb Hp). split; [|discriminate].
      destruct (_ || _ || _); [discriminate|]. destruct call; discriminate.
    + unfold Tool.POST. rewrite Hb, Hp. split; reflexivity.
Qed.

Lemma prompt_check_is_falsiness_witness :
  read_body (promptBody (JStr [])) = inr (JVal (JStr []), JUndef, JUndef, JUndef) /\
  Plain.POST (promptBody (JStr [])) (inr []) = promptRequired /\
  Tool.POST (promptBody (JNum 1%Qc)) (inr []) <> promptRequired.
Proof.
  assert (H1 : read_body (promptBody (JStr [])) = inr (JVal (JStr []), JUndef, JUndef, JUndef))
    by reflexivity.
  assert (H2 : read_body (promptBody (JNum 1%Qc)) = inr (JVal (JNum 1%Qc), JUndef, JUndef, JUndef))
    by reflexivity.
  split; [exact H1|split].
  - apply (proj1 (prompt_check_is_falsiness _ (inr []) (inr []) _ _ _ _ H1)). reflexivity.
  - intros E. apply (proj2 (prompt_check_is_falsiness _ (inr []) (inr []) _ _ _ _ H2)) in E.
    vm_compute in E. discriminate E.
Defined.

(** * Further properties of the code *)

(** ** Links and parents *)

Lemma concat_map_concat : forall {A B} (g : A -> list B) (L : list (list A)),
  List.concat (map g (List.concat L)) = List.concat (map (fun l => List.concat (map g l)) L).
Proof.
  intros A B g L. induction L as [|l L IH]; simpl; [reflexivity|].
  rewrite map_app, concat_app, IH. reflexivity.
Qed.

Lemma concat_map_cons : forall {A B} (g : A -> list B) a l,
  List.concat (map g (a :: l)) = g a ++ List.concat (map g l).
Proof. reflexivity. Qed.

Lemma findPairs_node_eq : forall n,
  findPairs_node n = map (fun c => (n, c)) (children n) ++ links (children n).
Proof. intros [i q cs nx ny h m conv th]. reflexivity. Qed.

Lemma findPairs_node_all : forall n,
  findPairs_node n
  = List.concat (map (fun p => map (fun c => (p, c)) (children p)) (all_nodes_node n)).
Proof.
  induction n as [i q cs nx ny h m conv th IH] using ChatNode_ind'.
  rewrite findPairs_node_eq, all_nodes_node_eq, concat_map_cons. f_equal.
  simpl children. unfold links, all_nodes. rewrite concat_map_concat, map_map. f_equal.
  apply map_ext_in. intros c Hc. rewrite Forall_forall in IH. apply IH, Hc.
Qed.

Lemma links_all : forall t,
  links t = List.concat (map (fun p => map (fun c => (p, c)) (children p)) (all_nodes t)).
Proof.
  intros t. unfold links, all_nodes. rewrite concat_map_concat, map_map. f_equal.
  apply map_ext. exact findPairs_node_all.
Qed.

Lemma links_in : forall t p c,
  In (p, c) (links t) <-> In p (all_nodes t) /\ In c (children p).
Proof.
  intros t p c. rewrite links_all, in_concat. split.
  - intros [l [Hl Hpc]]. apply in_map_iff in Hl as [p' [<- Hp']].
    apply in_map_iff in Hpc as [c' [E Hc']]. injection E as -> ->. tauto.
  - intros [Hp Hc]. exists (map (fun c0 => (p, c0)) (children p)). split.
    + apply in_map_iff. exists p. tauto.
    + apply in_map_iff. exists c. tauto.
Qed.

Lemma links_snd : forall t,
  map snd (links t) = List.concat (map children (all_nodes t)).
Proof.
  intros t. rewrite links_all, concat_map, map_map. f_equal.
  apply map_ext. intros p. rewrite map_map. apply map_id.
Qed.

Lemma all_nodes_perm : forall l,
  Permutation (all_nodes l) (l ++ List.concat (map children (all_nodes l))).
Proof.
  assert (Hn : forall n, Permutation (all_nodes_node n)
                 (n :: List.concat (map children (all_nodes_node n)))).
  { induction n as [i q cs nx ny h m conv th IH] using ChatNode_ind'.
    rewrite all_nodes_node_eq. simpl children at 1. simpl map. simpl List.concat.
    change (mkNode i q cs nx ny h m conv th) with (mkNode i q cs nx ny h m conv th).
    apply perm_skip. unfold all_nodes. simpl.
    induction IH as [|c cs' Hc _ IHcs]; simpl; [reflexivity|].
    rewrite map_app, concat_app.
    eapply Permutation_trans; [apply Permutation_app; [exact Hc|exact IHcs]|].
    simpl. apply perm_skip. rewrite !app_assoc. apply Permutation_app_tail.
    apply Permutation_app_comm. }
  induction l as [|n l IH]; simpl; [reflexivity|].
  rewrite all_nodes_cons, map_app, concat_app.
  eapply Permutation_trans; [apply Permutation_app; [apply Hn|exact IH]|].
  simpl. apply perm_skip. rewrite !app_assoc. apply Permutation_app_tail.
  apply Permutation_app_comm.
Qed.

Lemma find_app : forall {A} (P : A -> bool) l1 l2,
  find P (l1 ++ l2) = match find P l1 with Some a => Some a | None => find P l2 end.
Proof.
  intros A P l1 l2. induction l1 as [|a l1 IH]; simpl; [reflexivity|].
  destruct (P a); [reflexivity|exact IH].
Qed.

Lemma findNode_find : forall t k,
  findNode t k = find (fun n => Z.eqb (id n) k) (all_nodes t).
Proof.
  assert (Hn : forall k n, findNode_node k n = find (fun n => Z.eqb (id n) k) (all_nodes_node n)).
  { intros k n. induction n as [i q cs nx ny h m conv th IH] using ChatNode_ind'.
    simpl. destruct (Z.eqb i k); [reflexivity|].
    induction IH as [|c cs' Hc _ IHcs]; simpl; [reflexivity|].
    rewrite find_app, <- Hc. destruct (findNode_node k c); [reflexivity|exact IHcs]. }
  intros t k. induction t as [|n t IH]; simpl; [reflexivity|].
  rewrite all_nodes_cons, find_app, <- Hn. destruct (findNode_node k n); [reflexivity|exact IH].
Qed.

Lemma findParent_find : forall t k,
  findParent t k = find (hasChild k) (all_nodes t).
Proof.
  assert (Hn : forall k n, findParent_node k n = find (hasChild k) (all_nodes_node n)).
  { intros k n. induction n as [i q cs nx ny h m conv th IH] using ChatNode_ind'.
    simpl. unfold hasChild at 1. simpl children. destruct (existsb _ cs); [reflexivity|].
    induction IH as [|c cs' Hc _ IHcs]; simpl; [reflexivity|].
    rewrite find_app, <- Hc. destruct (findParent_node k c); [reflexivity|exact IHcs]. }
  intros t k. induction t as [|n t IH]; simpl; [reflexivity|].
  rewrite all_nodes_cons, find_app, <- Hn. destruct (findParent_node k n); [reflexivity|exact IH].
Qed.

Lemma find_NoDup_id : forall l n, NoDup (map id l) -> In n l ->
  find (fun m => Z.eqb (id m) (id n)) l = Some n.
Proof.
  induction l as [|a l IH]; intros n Hnd Hn; [destruct Hn|].
  simpl in Hnd. inversion Hnd as [|? ? Ha Hnd']; subst. simpl.
  destruct (Z.eqb_spec (id a) (id n)) as [E|E].
  - destruct Hn as [->|Hn]; [reflexivity|].
    exfalso. apply Ha. rewrite E. apply in_map, Hn.
  - destruct Hn as [->|Hn]; [contradiction|]. apply IH; assumption.
Qed.

Lemma hasChild_true : forall k q, hasChild k q = true ->
  exists c, In c (children q) /\ id c = k.
Proof.
  intros k q H. unfold hasChild in H. apply existsb_exists in H as [c [Hc E]].
  apply Z.eqb_eq in E. eauto.
Qed.

Lemma find_parent_NoDup : forall l p c,
  NoDup (map id (List.concat (map children l))) -> In p l -> In c (children p) ->
  find (hasChild (id c)) l = Some p.
Proof.
  induction l as [|q l IH]; intros p c Hnd Hp Hc; [destruct Hp|].
  simpl in Hnd. rewrite map_app in Hnd. simpl.
  destruct (hasChild (id c) q) eqn:Hq.
  - destruct Hp as [->|Hp]; [reflexivity|].
    apply hasChild_true in Hq as [c' [Hc' E]]. exfalso.
    apply (NoDup_app_disj _ _ (id c) Hnd).
    + rewrite <- E. apply in_map, Hc'.
    + apply in_map, in_concat. exists (children p). split; [apply in_map, Hp|exact Hc].
  - destruct Hp as [->|Hp].
    + exfalso. assert (H : hasChild (id c) p = true).
      { unfold hasChild. apply existsb_exists. exists c. split; [exact Hc|apply Z.eqb_refl]. }
      congruence.
    + apply IH; [eapply NoDup_app_remove_l; exact Hnd|exact Hp|exact Hc].
Qed.

Lemma find_none_all : forall {A} (P : A -> bool) l,
  (forall a, In a l -> P a = false) -> find P l = None.
Proof.
  intros A P l H. induction l as [|a l IH]; simpl; [reflexivity|].
  rewrite (H a (or_introl eq_refl)). apply IH. intros b Hb. apply H. right. exact Hb.
Qed.

Lemma ids_NoDup_split : forall t, NoDup (ids t) ->
  NoDup (map id t ++ map id (List.concat (map children (all_nodes t)))).
Proof.
  intros t Hnd. rewrite ids_all in Hnd. rewrite <- map_app.
  eapply Permutation_NoDup; [apply Permutation_map, all_nodes_perm|exact Hnd].
Qed.

Lemma sampleTree_NoDup : NoDup (ids sampleTree).
Proof. simpl. repeat (constructor; [simpl; intuition discriminate|]). constructor. Qed.

(** Every card of the tree is either a root or the child end of exactly
    one drawn link: the roots followed by the link children are a
    permutation of all the cards. *)
Theorem links_cover_cards : forall t,
  Permutation (t ++ map snd (links t)) (all_nodes t).
Proof.
  intros t. rewrite links_snd. symmetry. apply all_nodes_perm.
Qed.

(** The links are exactly the pairs of a card of the tree and one of its
    children. *)
Theorem links_are_parent_child : forall t p c,
  In (p, c) (links t) <-> In p (all_nodes t) /\ In c (children p).
Proof. exact links_in. Qed.

(** [findNode] returns the first card in pre-order with the given id;
    when ids are unique it returns the card of that id. *)
Theorem findNode_unique_id : forall t n,
  NoDup (ids t) -> In n (all_nodes t) -> findNode t (id n) = Some n.
Proof.
  intros t n Hnd Hn. rewrite findNode_find. apply find_NoDup_id; [|exact Hn].
  rewrite <- ids_all. exact Hnd.
Qed.

Lemma findNode_unique_id_witness :
  (NoDup (ids sampleTree) /\ In sampleSub (all_nodes sampleTree)) /\
  findNode sampleTree 2 = Some sampleSub.
Proof.
  assert (Hin : In sampleSub (all_nodes sampleTree)) by (simpl; tauto).
  split; [split; [exact sampleTree_NoDup|exact Hin]|].
  exact (findNode_unique_id sampleTree sampleSub sampleTree_NoDup Hin).
Defined.

(** When ids are unique, [findParent] of a child's id is its parent, and
    [findParent] of a root's id is [null]: the parent transcript is sent
    for every card but the roots. *)
Theorem findParent_unique_id : forall t,
  NoDup (ids t) ->
  (forall p c, In p (all_nodes t) -> In c (children p) -> findParent t (id c) = Some p) /\
  (forall r, In r t -> findParent t (id r) = None).
Proof.
  intros t Hnd. pose proof (ids_NoDup_split t Hnd) as Hsplit. split.
  - intros p c Hp Hc. rewrite findParent_find.
    apply find_parent_NoDup; [|exact Hp|exact Hc].
    eapply NoDup_app_remove_l. exact Hsplit.
  - intros r Hr. rewrite findParent_find. apply find_none_all.
    intros q Hq. destruct (hasChild (id r) q) eqn:E; [|reflexivity].
    apply hasChild_true in E as [c [Hc Ec]]. exfalso.
    apply (NoDup_app_disj _ _ (id r) Hsplit); [apply in_map, Hr|].
    rewrite <- Ec. apply in_map, in_concat. exists (children q).
    split; [apply in_map, Hq|exact Hc].
Qed.

Lemma findParent_unique_id_witness :
  NoDup (ids sampleTree) /\
  findParent sampleTree (id (leaf 3)) = Some sampleSub /\
  findParent sampleTree 1 = None.
Proof.
  split; [exact sampleTree_NoDup|].
  destruct (findParent_unique_id sampleTree sampleTree_NoDup) as [H1 H2]. split.
  - apply H1; [simpl; tauto|simpl; tauto].
  - exact (H2 (hd (leaf 0) sampleTree) (or_introl eq_refl)).
Defined.

(** ** Tree mutations *)

Section AddChild.
Variable src : Z.
Variable nn : ChatNode.

Lemma addChild_absent_forest : forall l,
  Forall (fun n => ~ In src (map id (all_nodes_node n)) -> addChild_node src nn n = n) l ->
  ~ In src (map id (all_nodes l)) -> map (addChild_node src nn) l = l.
Proof.
  induction l as [|n l IH]; intros Hall Hk; [reflexivity|].
  inversion Hall as [|? ? Hn Hl]; subst.
  rewrite all_nodes_cons, map_app, in_app_iff in Hk. simpl.
  rewrite Hn by tauto. rewrite IH by tauto. reflexivity.
Qed.

Lemma addChild_node_absent : forall n,
  ~ In src (map id (all_nodes_node n)) -> addChild_node src nn n = n.
Proof.
  induction n as [i q cs nx ny h m conv th IH] using ChatNode_ind'.
  intros Hk. rewrite all_nodes_node_eq in Hk. simpl in Hk. simpl.
  destruct (Z.eqb_spec i src) as [E|E]; [tauto|].
  destruct cs as [|c cs]; [reflexivity|].
  rewrite (addChild_absent_forest (c :: cs) IH) by tauto. reflexivity.
Qed.

Lemma addChild_absent : forall l,
  ~ In src (map id (all_nodes l)) -> map (addChild_node src nn) l = l.
Proof.
  intros l. apply addChild_absent_forest. apply Forall_forall.
  intros n _. apply addChild_node_absent.
Qed.

Lemma addChild_once_forest : forall l,
  Forall (fun n => NoDup (map id (all_nodes_node n)) -> In src (map id (all_nodes_node n)) ->
     Permutation (map id (all_nodes_node (addChild_node src nn n)))
                 (map id (all_nodes_node n) ++ map id (all_nodes_node nn))) l ->
  NoDup (map id (all_nodes l)) -> In src (map id (all_nodes l)) ->
  Permutation (map id (all_nodes (map (addChild_node src nn) l)))
              (map id (all_nodes l) ++ map id (all_nodes_node nn)).
Proof.
  induction l as [|n l IH]; intros Hall Hnd Hk; [destruct Hk|].
  inversion Hall as [|? ? Hn Hl]; subst.
  simpl map at 2. rewrite !all_nodes_cons, !map_app in *.
  destruct (in_dec Z.eq_dec src (map id (all_nodes_node n))) as [Hin|Hout].
  - rewrite (addChild_absent l).
    2:{ intros Hl'. exact (NoDup_app_disj _ _ _ Hnd Hin Hl'). }
    eapply Permutation_trans.
    + apply Permutation_app_tail. apply Hn; [eapply NoDup_app_remove_r; exact Hnd|exact Hin].
    + rewrite <- !app_assoc. apply Permutation_app_head. apply Permutation_app_comm.
  - rewrite (addChild_node_absent n Hout). rewrite <- app_assoc.
    apply Permutation_app_head. apply IH;
      [exact Hl|eapply NoDup_app_remove_l; exact Hnd|apply in_app_iff in Hk; tauto].
Qed.

Lemma addChild_node_once : forall n,
  NoDup (map id (all_nodes_node n)) -> In src (map id (all_nodes_node n)) ->
  Permutation (map id (all_nodes_node (addChild_node src nn n)))
              (map id (all_nodes_node n) ++ map id (all_nodes_node nn)).
Proof.
  induction n as [i q cs nx ny h m conv th IH] using ChatNode_ind'.
  intros Hnd Hk. rewrite all_nodes_node_eq in Hnd, Hk. simpl in Hnd, Hk.
  inversion Hnd as [|? ? Hi Hnd']; subst. simpl addChild_node.
  destruct (Z.eqb_spec i src) as [E|E].
  - rewrite all_nodes_node_eq. simpl. unfold all_nodes.
    rewrite map_app, concat_app. simpl. rewrite app_nil_r, map_app. reflexivity.
  - destruct Hk as [Hk|Hk]; [congruence|].
    destruct cs as [|c cs]; [destruct Hk|].
    rewrite all_nodes_node_eq. simpl children. simpl map at 1. simpl.
    apply perm_skip. apply (addChild_once_forest (c :: cs) IH Hnd' Hk).
Qed.

Lemma addChild_once : forall l,
  NoDup (map id (all_nodes l)) -> In src (map id (all_nodes l)) ->
  Permutation (map id (all_nodes (map (addChild_node src nn) l)))
              (map id (all_nodes l) ++ map id (all_nodes_node nn)).
Proof.
  intros l. apply addChild_once_forest. apply Forall_forall.
  intros n _. apply addChild_node_once.
Qed.

Lemma findNode_addChild : forall t p, findNode t src = Some p ->
  findNode (addChild src nn t) src = Some (with_children p (children p ++ [nn])).
Proof.
  intros t p Hp. unfold addChild. rewrite (findNode_map src (addChild_node src nn)).
  - rewrite Hp. simpl. f_equal. pose proof (findNode_id _ _ _ Hp) as E.
    destruct p as [i q cs nx ny h m conv th]. simpl in E. subst. simpl.
    rewrite Z.eqb_refl. reflexivity.
  - apply addChild_node_id.
  - intros [i q cs nx ny h m conv th] E. simpl in E. apply Z.eqb_neq in E.
    simpl. rewrite E. destruct cs; reflexivity.
Qed.
End AddChild.

Section RemoveIds.
Variable k : Z.

Lemma removeNode_ids_forest : forall l,
  Forall (fun n => forall z, In z (map id (all_nodes_node (removeNode_node k n))) ->
            (z = id n \/ z <> k) /\ In z (map id (all_nodes_node n))) l ->
  forall z, In z (map id (all_nodes (removeNode k l))) ->
    z <> k /\ In z (map id (all_nodes l)).
Proof.
  induction l as [|n l IH]; intros Hall z Hz; [destruct Hz|].
  inversion Hall as [|? ? Hn Hl]; subst.
  rewrite all_nodes_cons, map_app, in_app_iff. simpl in Hz.
  destruct (Z.eqb_spec (id n) k) as [E|E].
  - destruct (IH Hl z Hz). tauto.
  - rewrite all_nodes_cons, map_app, in_app_iff in Hz. destruct Hz as [Hz|Hz].
    + destruct (Hn z Hz) as [[->|Hne] Hin]; tauto.
    + destruct (IH Hl z Hz). tauto.
Qed.

Lemma removeNode_node_ids : forall n z,
  In z (map id (all_nodes_node (removeNode_node k n))) ->
  (z = id n \/ z <> k) /\ In z (map id (all_nodes_node n)).
Proof.
  induction n as [i q cs nx ny h m conv th IH] using ChatNode_ind'.
  intros z Hz. rewrite removeNode_node_eq, all_nodes_node_eq in Hz. simpl in Hz.
  rewrite all_nodes_node_eq. simpl. destruct Hz as [<-|Hz]; [tauto|].
  destruct (removeNode_ids_forest cs IH z Hz). tauto.
Qed.

Lemma removeNode_ids : forall l z,
  In z (map id (all_nodes (removeNode k l))) -> z <> k /\ In z (map id (all_nodes l)).
Proof.
  intros l. apply removeNode_ids_forest. apply Forall_forall.
  intros n _. apply removeNode_node_ids.
Qed.
End RemoveIds.

Lemma flatten_node_moveChild : forall dx dy n,
  flatten_node (moveChild dx dy n) = map (shift_flat dx dy) (flatten_node n).
Proof.
  intros dx dy n. induction n as [i q cs nx ny h m conv th IH] using ChatNode_ind'.
  simpl. f_equal. rewrite map_map, concat_map, map_map. f_equal.
  apply map_ext_in. intros c Hc. rewrite Forall_forall in IH. apply IH, Hc.
Qed.

Lemma flatten_moveChildren : forall dx dy cs,
  flatten (map (moveChild dx dy) cs) = map (shift_flat dx dy) (flatten cs).
Proof.
  intros dx dy cs. unfold flatten. rewrite concat_map, !map_map. f_equal.
  apply map_ext. apply flatten_node_moveChild.
Qed.

Lemma ids_node_updatePosition : forall k px py n,
  map f_id (flatten_node (updatePosition_node k px py n)) = map f_id (flatten_node n).
Proof.
  intros k px py n. induction n as [i q cs nx ny h m conv th IH] using ChatNode_ind'.
  simpl. destruct (Z.eqb i k); simpl; f_equal.
  - fold (flatten (map (moveChild (px - nx) (py - ny)) cs)). fold (flatten cs).
    rewrite flatten_moveChildren, map_map. reflexivity.
  - rewrite !concat_map, !map_map. f_equal. apply map_ext_in.
    intros c Hc. rewrite Forall_forall in IH. apply IH, Hc.
Qed.

Lemma ids_updatePosition : forall k px py t,
  ids (updatePosition k px py t) = ids t.
Proof.
  intros k px py t. unfold ids, flatten, updatePosition.
  rewrite !concat_map, !map_map. f_equal. apply map_ext. apply ids_node_updatePosition.
Qed.

Section Geom.
Variable f : ChatNode -> ChatNode.
Hypothesis f_shape : forall n, exists conv th,
  f n = mkNode (id n) (quotedText n) (children n) (x n) (y n) (height n)
               (manualPosition n) conv th \/
  f n = mkNode (id n) (quotedText n) (map f (children n)) (x n) (y n) (height n)
               (manualPosition n) conv th.

Lemma geom_keep : forall n, geom (f n) = geom n.
Proof.
  induction n as [i q cs nx ny h m conv th IH] using ChatNode_ind'.
  destruct (f_shape (mkNode i q cs nx ny h m conv th)) as [conv' [th' [E|E]]];
    rewrite E; simpl; [reflexivity|].
  f_equal. rewrite map_map. apply map_ext_in. intros c Hc.
  rewrite Forall_forall in IH. apply IH, Hc.
Qed.
End Geom.

Ltac geom_shape :=
  intros [i q cs nx ny h m conv th]; simpl;
  repeat match goal with
  | |- context [if ?b then _ else _] => destruct b
  | |- context [match ?o with Some _ => _ | None => _ end] => destruct o
  end;
  eexists; eexists; (left; reflexivity) || (right; reflexivity).

Lemma appendResponseChunk_unchanged_forest : forall k chunk l,
  Forall (fun n => (forall p, In p (all_nodes_node n) -> id p = k ->
             forall msg, last_msg (conversation p) = Some msg -> role_of msg = user) ->
             appendResponseChunk k chunk n = n) l ->
  (forall p, In p (all_nodes l) -> id p = k ->
     forall msg, last_msg (conversation p) = Some msg -> role_of msg = user) ->
  map (appendResponseChunk k chunk) l = l.
Proof.
  intros k chunk l. induction l as [|n l IH]; intros Hall H; [reflexivity|].
  inversion Hall as [|? ? Hn Hl]; subst. simpl. f_equal.
  - apply Hn. intros p Hp. apply H. rewrite all_nodes_cons. apply in_app_iff. tauto.
  - apply IH; [exact Hl|]. intros p Hp. apply H. rewrite all_nodes_cons. apply in_app_iff. tauto.
Qed.

Lemma appendResponseChunk_node_unchanged : forall k chunk n,
  (forall p, In p (all_nodes_node n) -> id p = k ->
     forall msg, last_msg (conversation p) = Some msg -> role_of msg = user) ->
  appendResponseChunk k chunk n = n.
Proof.
  intros k chunk n. induction n as [i q cs nx ny h m conv th IH] using ChatNode_ind'.
  intros H. rewrite all_nodes_node_eq in H.
  assert (Hcs : map (appendResponseChunk k chunk) cs = cs).
  { apply (appendResponseChunk_unchanged_forest k chunk cs IH).
    intros p Hp. apply H. right. exact Hp. }
  simpl. rewrite Hcs. destruct (Z.eqb_spec i k) as [E|E]; [|reflexivity].
  destruct (last_msg conv) as [msg|] eqn:Em; [|reflexivity].
  rewrite (H _ (or_introl eq_refl) E msg Em). reflexivity.
Qed.

(** [handleBranch] and [handleCreateFromSelection] append the new card as
    the last child of the card they start from, which keeps everything
    else. *)
Theorem addChild_appends_last : forall t src p newId text,
  findNode t src = Some p ->
  findNode (branch newId src t) src
    = Some (with_children p (children p ++ [newBranchNode newId])) /\
  findNode (createFromSelection newId src text t) src
    = Some (with_children p (children p ++ [newSelectionNode newId text])).
Proof.
  intros t src p newId text Hp. split; apply findNode_addChild; exact Hp.
Qed.

Lemma addChild_appends_last_witness :
  findNode sampleTree 2 = Some sampleSub /\
  findNode (branch 9 2 sampleTree) 2
    = Some (with_children sampleSub (children sampleSub ++ [newBranchNode 9])) /\
  findNode (createFromSelection 9 2 [97] sampleTree) 2
    = Some (with_children sampleSub (children sampleSub ++ [newSelectionNode 9 [97]])).
Proof.
  assert (H : findNode sampleTree 2 = Some sampleSub) by reflexivity.
  split; [exact H|]. exact (addChild_appends_last sampleTree 2 sampleSub 9 [97] H).
Defined.

(** Branching or quoting from an id that is not in the tree changes
    nothing. *)
Theorem addChild_missing_source : forall t src newId text,
  ~ In src (ids t) ->
  branch newId src t = t /\ createFromSelection newId src text t = t.
Proof.
  intros t src newId text Hk. rewrite ids_all in Hk.
  split; apply addChild_absent; exact Hk.
Qed.

Lemma addChild_missing_source_witness :
  ~ In 7%Z (ids sampleTree) /\ branch 9 7 sampleTree = sampleTree /\
  createFromSelection 9 7 [97] sampleTree = sampleTree.
Proof.
  assert (H : ~ In 7%Z (ids sampleTree)) by (simpl; intuition discriminate).
  split; [exact H|]. exact (addChild_missing_source sampleTree 7 9 [97] H).
Defined.

(** When ids are unique and the source card is in the tree, branching or
    quoting adds exactly one card, of id [newId]. *)
Theorem addChild_adds_one_card : forall t src newId text,
  NoDup (ids t) -> In src (ids t) ->
  Permutation (ids (branch newId src t)) (ids t ++ [newId]) /\
  Permutation (ids (createFromSelection newId src text t)) (ids t ++ [newId]).
Proof.
  intros t src newId text Hnd Hk. rewrite !ids_all in *.
  split; apply addChild_once; assumption.
Qed.

Lemma addChild_adds_one_card_witness :
  (NoDup (ids sampleTree) /\ In 2%Z (ids sampleTree)) /\
  Permutation (ids (branch 9 2 sampleTree)) (ids sampleTree ++ [9%Z]).
Proof.
  assert (H : In 2%Z (ids sampleTree)) by (simpl; tauto).
  split; [split; [exact sampleTree_NoDup|exact H]|].
  exact (proj1 (addChild_adds_one_card sampleTree 2 9 [] sampleTree_NoDup H)).
Defined.

(** [handleDelete] leaves no card of the deleted id and adds none; it
    changes the tree exactly when the id is in it. *)
Theorem deleteNode_ids : forall t k,
  ~ In k (ids (deleteNode k t)) /\ incl (ids (deleteNode k t)) (ids t) /\
  (deleteNode k t = t <-> ~ In k (ids t)).
Proof.
  intros t k. unfold deleteNode. rewrite !ids_all.
  assert (H1 : ~ In k (map id (all_nodes (removeNode k t)))).
  { intros Hk. exact (proj1 (removeNode_ids k t k Hk) eq_refl). }
  split; [exact H1|]. split.
  - intros z Hz. exact (proj2 (removeNode_ids k t z Hz)).
  - split.
    + intros E. rewrite E in H1. exact H1.
    + apply removeNode_absent.
Qed.

(** Dragging a card ([updatePosition]) puts it at the dropped position,
    flags it as manually placed, moves its descendants rigidly (their
    offsets from it are kept) and keeps the ids of the tree. *)
Theorem updatePosition_moves_subtree : forall t k px py p,
  findNode t k = Some p ->
  exists p', findNode (updatePosition k px py t) k = Some p' /\
    x p' = px /\ y p' = py /\ manualPosition p' = true /\
    map (fun d => (f_id d, (f_x d - x p')%Qc, (f_y d - y p')%Qc)) (flatten (children p'))
    = map (fun d => (f_id d, (f_x d - x p)%Qc, (f_y d - y p)%Qc)) (flatten (children p)) /\
    ids (updatePosition k px py t) = ids t.
Proof.
  intros t k px py p Hp.
  exists (updatePosition_node k px py p). split.
  - unfold updatePosition. rewrite (findNode_map k (updatePosition_node k px py)).
    + rewrite Hp. reflexivity.
    + apply updatePosition_node_id.
    + intros [i q cs nx ny h m conv th] E. simpl in E. apply Z.eqb_neq in E.
      simpl. rewrite E. reflexivity.
  - pose proof (findNode_id _ _ _ Hp) as E.
    destruct p as [i q cs nx ny h m conv th]. simpl in E. subst. simpl.
    rewrite Z.eqb_refl. simpl.
    split; [reflexivity|]. split; [reflexivity|]. split; [reflexivity|]. split.
    + rewrite flatten_moveChildren, map_map. apply map_ext. intros d.
      unfold shift_flat. simpl.
      apply injective_projections; simpl; [apply injective_projections; simpl; [reflexivity|ring]|ring].
    + apply ids_updatePosition.
Qed.

Lemma updatePosition_moves_subtree_witness :
  findNode sampleTree 2 = Some sampleSub /\
  exists p', findNode (updatePosition 2 (qc 40) (qc 50) sampleTree) 2 = Some p' /\
    x p' = qc 40 /\ y p' = qc 50 /\ manualPosition p' = true /\
    map (fun d => (f_id d, (f_x d - x p')%Qc, (f_y d - y p')%Qc)) (flatten (children p'))
    = map (fun d => (f_id d, (f_x d - x sampleSub)%Qc, (f_y d - y sampleSub)%Qc))
          (flatten (children sampleSub)) /\
    ids (updatePosition 2 (qc 40) (qc 50) sampleTree) = ids sampleTree.
Proof.
  assert (H : findNode sampleTree 2 = Some sampleSub) by reflexivity.
  split; [exact H|]. exact (updatePosition_moves_subtree sampleTree 2 (qc 40) (qc 50) sampleSub H).
Defined.

(** The message updates of [handleNewMessage] ([appendMessage], the error
    reset, the assistant placeholder and the response chunks) change only
    conversations and thinking flags: no card moves, changes size or
    flags, and the shape of the tree is kept. *)
Theorem message_updates_keep_geometry : forall t k msg chunk,
  map geom (map (appendMessage k msg) t) = map geom t /\
  map geom (map (setErrorState k) t) = map geom t /\
  map geom (map (addAssistantPlaceholder k) t) = map geom t /\
  map geom (map (appendResponseChunk k chunk) t) = map geom t.
Proof.
  intros t k msg chunk. rewrite !map_map.
  split; [|split; [|split]]; apply map_ext; apply geom_keep; geom_shape.
Qed.

(** A response chunk for a card whose conversation does not end with an
    assistant message is dropped: the tree is unchanged. *)
Theorem appendResponseChunk_drops_chunk : forall t k chunk,
  (forall p, In p (all_nodes t) -> id p = k ->
     forall msg, last_msg (conversation p) = Some msg -> role_of msg = user) ->
  map (appendResponseChunk k chunk) t = t.
Proof.
  intros t k chunk H. apply (appendResponseChunk_unchanged_forest k chunk t); [|exact H].
  apply Forall_forall. intros n _. apply appendResponseChunk_node_unchanged.
Qed.

Lemma appendResponseChunk_drops_chunk_witness :
  map (appendResponseChunk 1 [97]) (map (appendMessage 1 [104]) sampleTree)
    = map (appendMessage 1 [104]) sampleTree.
Proof.
  apply appendResponseChunk_drops_chunk.
  intros p Hp. vm_compute in Hp.
  repeat (destruct Hp as [<-|Hp]; [vm_compute; try discriminate;
                                   intros _ msg Hm; injection Hm as <-; reflexivity|]).
  destruct Hp.
Defined.

(** ** Layout geometry *)

Lemma Qc_le_of_diff : forall a b d : Qc, (0 <= d)%Qc -> b = (a + d)%Qc -> (a <= b)%Qc.
Proof.
  intros a b d Hd ->. apply Qcle_minus_iff.
  replace (a + d + - a)%Qc with d by ring. exact Hd.
Qed.

Lemma Qc_nonneg_mult : forall a b : Qc, (0 <= a)%Qc -> (0 <= b)%Qc -> (0 <= a * b)%Qc.
Proof.
  intros a b Ha Hb. rewrite <- (Qcmult_0_l b). apply Qcmult_le_compat_r; assumption.
Qed.

Lemma Qc_nonneg_plus : forall a b : Qc, (0 <= a)%Qc -> (0 <= b)%Qc -> (0 <= a + b)%Qc.
Proof.
  intros a b Ha Hb. rewrite <- (Qcplus_0_l 0). apply Qcplus_le_compat; assumption.
Qed.

Lemma Qc_sub_nonneg : forall a b : Qc, (a <= b)%Qc -> (0 <= b - a)%Qc.
Proof. intros a b H. apply Qcle_minus_iff in H. exact H. Qed.

Lemma half_nonneg : forall d : Qc, (0 <= d)%Qc -> (0 <= d / two)%Qc.
Proof.
  intros d Hd. apply Qc_nonneg_mult; [exact Hd|]. apply Qcle_alt. vm_compute. discriminate.
Qed.

Lemma js_max_ge_l : forall a b, (a <= js_max a b)%Qc.
Proof.
  intros a b. unfold js_max. destruct (a ?= b)%Qc eqn:E.
  - apply Qcle_refl.
  - apply Qclt_le_weak, Qclt_alt, E.
  - apply Qcle_refl.
Qed.

Lemma js_max_ge_r : forall a b, (b <= js_max a b)%Qc.
Proof.
  intros a b. unfold js_max. destruct (a ?= b)%Qc eqn:E.
  - apply Qceq_alt in E. subst. apply Qcle_refl.
  - apply Qcle_refl.
  - apply Qclt_le_weak. apply Qcgt_alt in E. exact E.
Qed.

Lemma js_min_le_l : forall a b, (js_min a b <= a)%Qc.
Proof.
  intros a b. unfold js_min. destruct (b ?= a)%Qc eqn:E.
  - apply Qcle_refl.
  - apply Qclt_le_weak, Qclt_alt, E.
  - apply Qcle_refl.
Qed.

Lemma js_min_le_r : forall a b, (js_min a b <= b)%Qc.
Proof.
  intros a b. unfold js_min. destruct (b ?= a)%Qc eqn:E.
  - apply Qceq_alt in E. subst. apply Qcle_refl.
  - apply Qcle_refl.
  - apply Qclt_le_weak. apply Qcgt_alt in E. exact E.
Qed.

Lemma getSubtreeHeight_ge : forall n, (height n <= getSubtreeHeight n)%Qc.
Proof.
  intros [i q cs nx ny h m conv th]. simpl. destruct cs; [apply Qcle_refl|apply js_max_ge_l].
Qed.

Lemma fold_spaced_ge : forall gap (l : list Qc) a,
  (forall w, In w l -> (0 <= w + gap)%Qc) ->
  (a <= fold_left (fun acc w => acc + w + gap) l a)%Qc.
Proof.
  intros gap l. induction l as [|w l IH]; intros a H; simpl; [apply Qcle_refl|].
  eapply Qcle_trans; [|apply IH; intros w' Hw'; apply H; right; exact Hw'].
  apply (Qc_le_of_diff _ _ (w + gap)); [apply H; left; reflexivity|ring].
Qed.

Lemma CARD_WIDTH_nonneg : (0 <= CARD_WIDTH)%Qc.
Proof. apply Qcle_alt. vm_compute. discriminate. Qed.

Lemma HORIZONTAL_SPACING_nonneg : (0 <= HORIZONTAL_SPACING)%Qc.
Proof. apply Qcle_alt. vm_compute. discriminate. Qed.

Lemma VERTICAL_SPACING_nonneg : (0 <= VERTICAL_SPACING)%Qc.
Proof. apply Qcle_alt. vm_compute. discriminate. Qed.

Lemma getSubtreeWidth_ge : forall n, (CARD_WIDTH <= getSubtreeWidth n)%Qc.
Proof.
  induction n as [i q cs nx ny h m conv th IH] using ChatNode_ind'.
  simpl. destruct cs as [|c cs]; [apply Qcle_refl|].
  inversion IH as [|? ? Hc Hcs]; subst.
  unfold sum_spaced. simpl.
  eapply Qcle_trans; [exact Hc|].
  replace (getSubtreeWidth c) with (- HORIZONTAL_SPACING + getSubtreeWidth c + HORIZONTAL_SPACING)%Qc
    at 1 by ring.
  apply fold_spaced_ge. intros w Hw. apply in_map_iff in Hw as [c' [<- Hc']].
  rewrite Forall_forall in Hcs. apply Qc_nonneg_plus; [|exact HORIZONTAL_SPACING_nonneg].
  eapply Qcle_trans; [exact CARD_WIDTH_nonneg|apply Hcs, Hc'].
Qed.

(** The slots of two consecutive non-manual children, as the layout
    leaves them. *)
Lemma layout_next_slot : forall mode t p j c c2,
  In p (all_nodes (fst (layoutOf mode t))) ->
  nth_error (children p) j = Some c -> manualPosition c = false ->
  nth_error (children p) (S j) = Some c2 -> manualPosition c2 = false ->
  match mode with
  | horizontal =>
      (y c2 + height c2 / two - getSubtreeHeight c2 / two
       = y c + height c / two + getSubtreeHeight c / two + VERTICAL_SPACING)%Qc
  | vertical =>
      (x c2 + CARD_WIDTH / two - getSubtreeWidth c2 / two
       = x c + CARD_WIDTH / two + getSubtreeWidth c / two + HORIZONTAL_SPACING)%Qc
  end.
Proof.
  intros mode t p j c c2 Hp Hj Hm Hj2 Hm2.
  pose proof (layoutOf_slots _ _ _ _ _ Hp Hj Hm) as Hs.
  pose proof (layoutOf_slots _ _ _ _ _ Hp Hj2 Hm2) as Hs2.
  pose proof (prefixStep_succ mode _ _ _ Hj) as Hps.
  unfold slotPos in Hs2. rewrite Hps in Hs2. unfold slotPos in Hs.
  destruct mode; simpl offsetStep in Hs2; unfold childPos in Hs, Hs2.
  - injection Hs as _ Hy. injection Hs2 as _ Hy2.
    rewrite Hy2, Hy, two_eq. field.
    intros H. apply (f_equal this) in H. vm_compute in H. discriminate H.
  - injection Hs as Hx _. injection Hs2 as Hx2 _.
    rewrite Hx2, Hx, two_eq. field.
    intros H. apply (f_equal this) in H. vm_compute in H. discriminate H.
Qed.

Lemma Qc_solve_add : forall a b c : Qc, (a + b = c)%Qc -> a = (c - b)%Qc.
Proof. intros a b c <-. ring. Qed.

Ltac two_field :=
  rewrite ?two_eq; field;
  intros H; apply (f_equal this) in H; vm_compute in H; discriminate H.

(** In vertical mode every non-manual child [c] at index [j] of a node
    [p] of the laid-out tree is placed [VERTICAL_SPACING] below the
    bottom of [p], and its slot (of the width of its subtree, the card
    centred in it) starts at the left of the row of the children's
    subtree widths separated by [HORIZONTAL_SPACING], a row centred on
    the centre of [p]. *)
Theorem layoutVertical_places_children : forall t p j c,
  In p (all_nodes (fst (layoutVertical t))) ->
  nth_error (children p) j = Some c -> manualPosition c = false ->
  y c = (y p + height p + VERTICAL_SPACING)%Qc /\
  (x c + CARD_WIDTH / two - getSubtreeWidth c / two
   = x p + CARD_WIDTH / two
     - sum_spaced HORIZONTAL_SPACING (map getSubtreeWidth (children p)) / two
     + prefixStep vertical j (children p))%Qc.
Proof.
  intros t p j c Hp Hj Hm.
  assert (Hp' : In p (all_nodes (fst (layoutOf vertical t)))) by exact Hp.
  pose proof (layoutOf_slots _ _ _ _ _ Hp' Hj Hm) as Hs.
  unfold slotPos, childPos, startOffset in Hs. injection Hs as Hx Hy.
  split; [exact Hy|]. rewrite Hx. ring.
Qed.

Lemma layoutVertical_places_children_witness :
  exists p c,
    (In p (all_nodes (fst (layoutVertical centeringTree))) /\
     nth_error (children p) 1%nat = Some c /\ manualPosition c = false) /\
    y c = (y p + height p + VERTICAL_SPACING)%Qc.
Proof.
  set (p := hd (leaf 0) (fst (layoutVertical centeringTree))).
  set (c := nth 1 (children p) (leaf 0)).
  assert (H1 : In p (all_nodes (fst (layoutVertical centeringTree))))
    by (vm_compute; left; reflexivity).
  assert (H2 : nth_error (children p) 1%nat = Some c) by (vm_compute; reflexivity).
  assert (H3 : manualPosition c = false) by (vm_compute; reflexivity).
  exists p, c. split; [split; [exact H1|split; [exact H2|exact H3]]|].
  exact (proj1 (layoutVertical_places_children centeringTree p 1%nat c H1 H2 H3)).
Defined.

(** Consecutive non-manual siblings never overlap after the layout: in
    horizontal mode the next one starts at least [VERTICAL_SPACING] below
    the bottom of the card, in vertical mode at least
    [HORIZONTAL_SPACING] right of its right edge. *)
Theorem layout_siblings_apart : forall mode t p j c c2,
  In p (all_nodes (fst (layoutOf mode t))) ->
  nth_error (children p) j = Some c -> manualPosition c = false ->
  nth_error (children p) (S j) = Some c2 -> manualPosition c2 = false ->
  match mode with
  | horizontal => (y c + height c + VERTICAL_SPACING <= y c2)%Qc
  | vertical => (x c + CARD_WIDTH + HORIZONTAL_SPACING <= x c2)%Qc
  end.
Proof.
  intros mode t p j c c2 Hp Hj Hm Hj2 Hm2.
  pose proof (layout_next_slot mode t p j c c2 Hp Hj Hm Hj2 Hm2) as E.
  destruct mode.
  - apply Qc_solve_add in E. apply Qc_solve_add in E.
    apply (Qc_le_of_diff _ _ ((getSubtreeHeight c - height c) / two
                             + (getSubtreeHeight c2 - height c2) / two)).
    + apply Qc_nonneg_plus; apply half_nonneg, Qc_sub_nonneg, getSubtreeHeight_ge.
    + rewrite E. two_field.
  - apply Qc_solve_add in E. apply Qc_solve_add in E.
    apply (Qc_le_of_diff _ _ ((getSubtreeWidth c - CARD_WIDTH) / two
                             + (getSubtreeWidth c2 - CARD_WIDTH) / two)).
    + apply Qc_nonneg_plus; apply half_nonneg, Qc_sub_nonneg, getSubtreeWidth_ge.
    + rewrite E. two_field.
Qed.

Lemma layout_siblings_apart_witness :
  exists p c c2,
    (In p (all_nodes (fst (layoutOf horizontal centeringTree))) /\
     nth_error (children p) 0%nat = Some c /\ manualPosition c = false /\
     nth_error (children p) 1%nat = Some c2 /\ manualPosition c2 = false) /\
    (y c + height c + VERTICAL_SPACING <= y c2)%Qc.
Proof.
  set (p := hd (leaf 0) (fst (layoutOf horizontal centeringTree))).
  set (c := nth 0 (children p) (leaf 0)).
  set (c2 := nth 1 (children p) (leaf 0)).
  assert (H1 : In p (all_nodes (fst (layoutOf horizontal centeringTree))))
    by (vm_compute; left; reflexivity).
  assert (H2 : nth_error (children p) 0%nat = Some c) by (vm_compute; reflexivity).
  assert (H3 : manualPosition c = false) by (vm_compute; reflexivity).
  assert (H4 : nth_error (children p) 1%nat = Some c2) by (vm_compute; reflexivity).
  assert (H5 : manualPosition c2 = false) by (vm_compute; reflexivity).
  exists p, c, c2. split; [tauto|].
  exact (layout_siblings_apart horizontal centeringTree p 0%nat c c2 H1 H2 H3 H4 H5).
Defined.

(** After the layout, the drawn link to a non-manual child spans exactly
    [HORIZONTAL_SPACING] across (horizontal mode) or [VERTICAL_SPACING]
    down (vertical mode). *)
Theorem layout_link_gap : forall mode t p c,
  In (p, c) (links (fst (layoutOf mode t))) -> manualPosition c = false ->
  let '(x1, y1, x2, y2) := linkEnds mode p c in
  match mode with
  | horizontal => (x2 - x1 = HORIZONTAL_SPACING)%Qc
  | vertical => (y2 - y1 = VERTICAL_SPACING)%Qc
  end.
Proof.
  intros mode t p c Hl Hm. apply links_in in Hl as [Hp Hc].
  apply In_nth_error in Hc as [j Hj].
  pose proof (layoutOf_slots _ _ _ _ _ Hp Hj Hm) as Hs.
  unfold slotPos, childPos in Hs. destruct mode; simpl.
  - injection Hs as Hx _. rewrite Hx. ring.
  - injection Hs as _ Hy. rewrite Hy. ring.
Qed.

Lemma layout_link_gap_witness :
  exists p c,
    (In (p, c) (links (fst (layoutOf vertical centeringTree))) /\ manualPosition c = false) /\
    let '(x1, y1, x2, y2) := linkEnds vertical p c in (y2 - y1 = VERTICAL_SPACING)%Qc.
Proof.
  set (p := hd (leaf 0) (fst (layoutOf vertical centeringTree))).
  set (c := nth 0 (children p) (leaf 0)).
  assert (H1 : In (p, c) (links (fst (layoutOf vertical centeringTree))))
    by (vm_compute; left; reflexivity).
  assert (H2 : manualPosition c = false) by (vm_compute; reflexivity).
  exists p, c. split; [tauto|].
  exact (layout_link_gap vertical centeringTree p c H1 H2).
Defined.

Lemma js_abs_min : forall x1 x2,
  js_abs (x2 - x1) = (x1 - js_min x1 x2 + (x2 - js_min x1 x2))%Qc.
Proof.
  intros x1 x2. unfold js_abs, js_min.
  destruct (Qc_dec x2 x1) as [[Hlt|Hgt]|Heq].
  - assert (E1 : (x2 ?= x1)%Qc = Lt) by (apply Qclt_alt, Hlt).
    assert (E2 : (x2 - x1 ?= 0)%Qc = Lt).
    { apply Qclt_alt, Qclt_minus_iff.
      replace (0 + - (x2 - x1))%Qc with (x1 + - x2)%Qc by ring.
      exact (proj1 (Qclt_minus_iff x2 x1) Hlt). }
    rewrite E1, E2. ring.
  - assert (E1 : (x2 ?= x1)%Qc = Gt) by (apply Qcgt_alt, Hgt).
    assert (E2 : (x2 - x1 ?= 0)%Qc = Gt).
    { apply Qcgt_alt. apply (proj2 (Qclt_minus_iff 0 (x2 - x1))).
      replace (x2 - x1 + - 0)%Qc with (x2 + - x1)%Qc by ring.
      exact (proj1 (Qclt_minus_iff x1 x2) Hgt). }
    rewrite E1, E2. ring.
  - subst. rewrite Qcminus_diag_0.
    assert (E1 : (x1 ?= x1)%Qc = Eq) by (apply Qceq_alt; reflexivity).
    assert (E2 : (0 ?= 0)%Qc = Eq) by (apply Qceq_alt; reflexivity).
    rewrite E1, E2. ring.
Qed.

Lemma link_box_axis : forall x1 x2,
  let left := (js_min x1 x2 - qc 10)%Qc in
  let width := (js_abs (x2 - x1) + qc 20)%Qc in
  (qc 10 <= x1 - left /\ x1 - left <= width - qc 10 /\
   qc 10 <= x2 - left /\ x2 - left <= width - qc 10)%Qc.
Proof.
  intros x1 x2. cbv zeta. rewrite js_abs_min.
  pose proof (Qc_sub_nonneg _ _ (js_min_le_l x1 x2)) as H1.
  pose proof (Qc_sub_nonneg _ _ (js_min_le_r x1 x2)) as H2.
  assert (E20 : qc 20 = (qc 10 + qc 10)%Qc) by (apply Qc_is_canon; vm_compute; reflexivity).
  rewrite E20. split; [|split; [|split]].
  - apply (Qc_le_of_diff _ _ (x1 - js_min x1 x2)); [exact H1|ring].
  - apply (Qc_le_of_diff _ _ (x2 - js_min x1 x2)); [exact H2|ring].
  - apply (Qc_le_of_diff _ _ (x2 - js_min x1 x2)); [exact H2|ring].
  - apply (Qc_le_of_diff _ _ (x1 - js_min x1 x2)); [exact H1|ring].
Qed.

(** The box of every drawn link holds both of its end points with a
    margin of 10 on each side. *)
Theorem linkGeometry_contains_ends : forall mode p c,
  let g := linkGeometry mode p c in
  (qc 10 <= lg_sx1 g /\ lg_sx1 g <= lg_width g - qc 10 /\
   qc 10 <= lg_sx2 g /\ lg_sx2 g <= lg_width g - qc 10 /\
   qc 10 <= lg_sy1 g /\ lg_sy1 g <= lg_height g - qc 10 /\
   qc 10 <= lg_sy2 g /\ lg_sy2 g <= lg_height g - qc 10)%Qc.
Proof.
  intros mode p c. cbv zeta. unfold linkGeometry.
  destruct (linkEnds mode p c) as [[[x1 y1] x2] y2]. simpl.
  destruct (link_box_axis x1 x2) as [A1 [A2 [A3 A4]]].
  destruct (link_box_axis y1 y2) as [B1 [B2 [B3 B4]]].
  tauto.
Qed.

(** ** Canvas pan and zoom *)

Lemma pan_moves_keep : forall moves s,
  Canvas.isPanning s = true ->
  Canvas.isPanning (pan_moves moves s) = true /\
  Canvas.startPanX (pan_moves moves s) = Canvas.startPanX s /\
  Canvas.startPanY (pan_moves moves s) = Canvas.startPanY s.
Proof.
  unfold pan_moves. induction moves as [|[mx my] moves IH]; intros s Hs; simpl; [tauto|].
  set (s' := Canvas.mkPan true (Canvas.startPanX s) (Canvas.startPanY s)
                          (mx - Canvas.startPanX s)%Qc (my - Canvas.startPanY s)%Qc).
  assert (E : Canvas.handleMouseMove mx my s = s')
    by (unfold Canvas.handleMouseMove; rewrite Hs; reflexivity).
  rewrite E. destruct (IH s' eq_refl) as [A [B C]].
  split; [exact A|]. rewrite B, C. split; reflexivity.
Qed.

Lemma pan_moves_idle : forall moves s,
  Canvas.isPanning s = false -> pan_moves moves s = s.
Proof.
  unfold pan_moves. induction moves as [|m moves IH]; intros s Hs; simpl; [reflexivity|].
  assert (E : Canvas.handleMouseMove (fst m) (snd m) s = s)
    by (unfold Canvas.handleMouseMove; rewrite Hs; reflexivity).
  rewrite E. apply IH, Hs.
Qed.

(** A left press on the bare canvas starts a pan; during it the canvas
    follows the mouse: after any moves it is offset from where it was by
    the distance from the press to the last mouse position. *)
Theorem canvas_pan_follows_mouse : forall s c0x c0y moves cx cy,
  let s' := pan_moves (moves ++ [(cx, cy)]) (Canvas.handleMouseDown false 0 c0x c0y s) in
  Canvas.isPanning s' = true /\
  Canvas.positionX s' = (Canvas.positionX s + (cx - c0x))%Qc /\
  Canvas.positionY s' = (Canvas.positionY s + (cy - c0y))%Qc.
Proof.
  intros s c0x c0y moves cx cy. cbv zeta.
  set (s1 := pan_moves moves (Canvas.handleMouseDown false 0 c0x c0y s)).
  assert (E : pan_moves (moves ++ [(cx, cy)]) (Canvas.handleMouseDown false 0 c0x c0y s)
              = Canvas.handleMouseMove cx cy s1)
    by (unfold s1, pan_moves; rewrite fold_left_app; reflexivity).
  rewrite E. destruct (pan_moves_keep moves (Canvas.handleMouseDown false 0 c0x c0y s) eq_refl)
    as [A [B C]].
  fold s1 in A, B, C. simpl in B, C.
  unfold Canvas.handleMouseMove. rewrite A. simpl. rewrite B, C.
  split; [reflexivity|]. split; ring.
Qed.

(** A press inside a card ([data-stop-pan]) or with another button does
    not start a pan: moves after it leave the canvas where it is.  After
    the mouse is released, in particular during a pan, moves do nothing. *)
Theorem canvas_pan_needs_left_press : forall s stopPan button cx cy moves,
  (Canvas.isPanning s = false -> stopPan = true \/ button <> 0%Z ->
   pan_moves moves (Canvas.handleMouseDown stopPan button cx cy s) = s) /\
  pan_moves moves (Canvas.handleMouseUp s) = Canvas.handleMouseUp s.
Proof.
  intros s stopPan button cx cy moves. split.
  - intros Hs Hb.
    assert (E : Canvas.handleMouseDown stopPan button cx cy s = s).
    { unfold Canvas.handleMouseDown. destruct stopPan; [reflexivity|].
      destruct Hb as [Hb|Hb]; [discriminate Hb|]. apply Z.eqb_neq in Hb. rewrite Hb.
      reflexivity. }
    rewrite E. apply pan_moves_idle. exact Hs.
  - apply pan_moves_idle. reflexivity.
Qed.

Lemma canvas_pan_needs_left_press_witness :
  let s := Canvas.mkPan false (qc 0) (qc 0) (qc 5) (qc 6) in
  let s2 := Canvas.mkPan true (qc 1) (qc 2) (qc 5) (qc 6) in
  (Canvas.isPanning s = false /\ (true = true \/ 0%Z <> 0%Z)) /\
  pan_moves [(qc 50, qc 60)] (Canvas.handleMouseDown true 0 (qc 1) (qc 2) s) = s /\
  pan_moves [(qc 50, qc 60)] (Canvas.handleMouseUp s2) = Canvas.handleMouseUp s2.
Proof.
  cbv zeta. split; [split; [reflexivity|left; reflexivity]|]. split.
  - exact (proj1 (canvas_pan_needs_left_press (Canvas.mkPan false (qc 0) (qc 0) (qc 5) (qc 6))
             true 0 (qc 1) (qc 2) [(qc 50, qc 60)]) eq_refl (or_introl eq_refl)).
  - exact (proj2 (canvas_pan_needs_left_press (Canvas.mkPan true (qc 1) (qc 2) (qc 5) (qc 6))
             true 0 (qc 1) (qc 2) [(qc 50, qc 60)])).
Defined.

Lemma js_min_ge : forall a b c, (c <= a)%Qc -> (c <= b)%Qc -> (c <= js_min a b)%Qc.
Proof. intros a b c Ha Hb. unfold js_min. destruct (b ?= a)%Qc; assumption. Qed.

Lemma js_max_le : forall a b c, (a <= c)%Qc -> (b <= c)%Qc -> (js_max a b <= c)%Qc.
Proof. intros a b c Ha Hb. unfold js_max. destruct (a ?= b)%Qc; assumption. Qed.

Lemma handleWheel_scale_bounds_aux : forall deltaY clientX clientY rect v,
  (Q2Qc (1 # 10) <= Canvas.scale (Canvas.handleWheel deltaY clientX clientY rect v) <= qc 3)%Qc.
Proof.
  intros deltaY clientX clientY rect v.
  assert (E : Canvas.scale (Canvas.handleWheel deltaY clientX clientY rect v)
              = js_min (js_max (Q2Qc (1 # 10)) (Canvas.scale v + deltaY * Q2Qc (-1 # 1000)))%Qc
                       (qc 3)).
  { unfold Canvas.handleWheel. destruct rect as [[l t]|]; reflexivity. }
  rewrite E. split.
  - apply js_min_ge; [apply js_max_ge_l|apply Qcle_alt; vm_compute; discriminate].
  - apply js_min_le_r.
Qed.

(** Zooming with the wheel keeps the scale between 0.1 and 3. *)
Theorem handleWheel_scale_bounds : forall deltaY clientX clientY rect v,
  (Q2Qc (1 # 10) <= Canvas.scale (Canvas.handleWheel deltaY clientX clientY rect v) <= qc 3)%Qc.
Proof. exact handleWheel_scale_bounds_aux. Qed.

(** Zooming with the wheel keeps the canvas point under the cursor in
    place: with the transform [translate(position) scale(scale)], the
    canvas coordinates of the cursor are the same before and after. *)
Theorem handleWheel_keeps_cursor_point : forall deltaY clientX clientY l tp v,
  Canvas.scale v <> 0%Qc ->
  let v' := Canvas.handleWheel deltaY clientX clientY (Some (l, tp)) v in
  ((clientX - l - Canvas.posX v') / Canvas.scale v'
   = (clientX - l - Canvas.posX v) / Canvas.scale v)%Qc /\
  ((clientY - tp - Canvas.posY v') / Canvas.scale v'
   = (clientY - tp - Canvas.posY v) / Canvas.scale v)%Qc.
Proof.
  intros deltaY clientX clientY l tp v Hs. cbv zeta.
  pose proof (handleWheel_scale_bounds_aux deltaY clientX clientY (Some (l, tp)) v) as [Hb _].
  assert (Hs' : Canvas.scale (Canvas.handleWheel deltaY clientX clientY (Some (l, tp)) v) <> 0%Qc).
  { intros E. rewrite E in Hb. apply Qcle_alt in Hb. apply Hb. vm_compute. reflexivity. }
  revert Hs'. unfold Canvas.handleWheel. simpl.
  set (s' := js_min (js_max (Q2Qc (1 # 10)) (Canvas.scale v + deltaY * Q2Qc (-1 # 1000)))%Qc (qc 3)).
  intros Hs'. split; field; split; assumption.
Qed.

Lemma handleWheel_keeps_cursor_point_witness :
  let v := Canvas.mkView (qc 10) (qc 20) (qc 1) in
  qc 1 <> 0%Qc /\
  ((qc 300 - qc 5 - Canvas.posX (Canvas.handleWheel (qc 100) (qc 300) (qc 400) (Some (qc 5, qc 6)) v))
     / Canvas.scale (Canvas.handleWheel (qc 100) (qc 300) (qc 400) (Some (qc 5, qc 6)) v)
   = (qc 300 - qc 5 - Canvas.posX v) / Canvas.scale v)%Qc.
Proof.
  cbv zeta. assert (H : qc 1 <> 0%Qc) by (intros E; apply (f_equal this) in E; discriminate E).
  split; [exact H|].
  exact (proj1 (handleWheel_keeps_cursor_point (qc 100) (qc 300) (qc 400) (qc 5) (qc 6)
                  (Canvas.mkView (qc 10) (qc 20) (qc 1)) H)).
Defined.


(** ** Canvas size *)

Lemma bounds_step_inv : forall measure acc seen f,
  bounds_inv measure acc seen ->
  bounds_inv measure (Canvas.bounds_step measure acc f) (seen ++ [f]).
Proof.
  intros measure acc seen f H. unfold Canvas.bounds_step.
  destruct (Canvas.cardSize measure (f_id f)) as [ch cw] eqn:Ec.
  destruct acc as [[[[minX maxX] minY] maxY]|]; simpl in H |- *.
  - intros g Hg. apply in_app_iff in Hg as [Hg|[<-|[]]].
    + destruct (H g Hg) as [A [B [C D]]].
      split; [eapply Qcle_trans; [apply js_min_le_l|exact A]|].
      split; [eapply Qcle_trans; [exact B|apply js_max_ge_l]|].
      split; [eapply Qcle_trans; [apply js_min_le_l|exact C]|].
      eapply Qcle_trans; [exact D|apply js_max_ge_l].
    + rewrite Ec. simpl.
      split; [apply js_min_le_r|]. split; [apply js_max_ge_r|].
      split; [apply js_min_le_r|apply js_max_ge_r].
  - subst seen. intros g [<-|[]]. rewrite Ec. simpl.
    split; [apply Qcle_refl|]. split; [apply Qcle_refl|].
    split; apply Qcle_refl.
Qed.

Lemma bounds_fold_inv : forall measure l acc seen,
  bounds_inv measure acc seen ->
  bounds_inv measure (fold_left (Canvas.bounds_step measure) l acc) (seen ++ l).
Proof.
  intros measure l. induction l as [|f l IH]; intros acc seen H; simpl.
  - rewrite app_nil_r. exact H.
  - replace (seen ++ f :: l) with ((seen ++ [f]) ++ l) by (rewrite <- app_assoc; reflexivity).
    apply IH, bounds_step_inv, H.
Qed.

(** The canvas is at least twice the window, and wide and high enough to
    hold every card with a padding of 200 on both sides: for any two
    cards [f] and [g], from the left (top) of [f] to the right (bottom)
    of [g] plus twice the padding fits in it. *)
Theorem canvas_size_covers_cards : forall measure flatChats innerWidth innerHeight f g,
  In f flatChats -> In g flatChats ->
  let '(W, H) := Canvas.getCanvasAndContentSize measure flatChats innerWidth innerHeight in
  (innerWidth * two <= W /\ innerHeight * two <= H /\
   f_x g + snd (Canvas.cardSize measure (f_id g)) - f_x f + two * qc 200 <= W /\
   f_y g + fst (Canvas.cardSize measure (f_id g)) - f_y f + two * qc 200 <= H)%Qc.
Proof.
  intros measure flatChats iw ih f g Hf Hg.
  pose proof (bounds_fold_inv measure flatChats None [] eq_refl) as Hinv.
  unfold Canvas.getCanvasAndContentSize.
  destruct (fold_left (Canvas.bounds_step measure) flatChats None)
    as [[[[minX maxX] minY] maxY]|]; simpl in Hinv.
  - destruct (Hinv f Hf) as [A1 [_ [A3 _]]]. destruct (Hinv g Hg) as [_ [B2 [_ B4]]].
    split; [apply js_max_ge_l|]. split; [apply js_max_ge_l|]. split.
    + eapply Qcle_trans; [|apply js_max_ge_r].
      apply (Qc_le_of_diff _ _ ((maxX - (f_x g + snd (Canvas.cardSize measure (f_id g))))
                                + (f_x f - minX))).
      * apply Qc_nonneg_plus; apply Qc_sub_nonneg; assumption.
      * ring.
    + eapply Qcle_trans; [|apply js_max_ge_r].
      apply (Qc_le_of_diff _ _ ((maxY - (f_y g + fst (Canvas.cardSize measure (f_id g))))
                                + (f_y f - minY))).
      * apply Qc_nonneg_plus; apply Qc_sub_nonneg; assumption.
      * ring.
  - subst flatChats. destruct Hf.
Qed.

Lemma canvas_size_covers_cards_witness :
  let fl := flatten sampleTree in
  (In (hd (flat (leaf 0)) fl) fl /\ In (last fl (flat (leaf 0))) fl) /\
  let '(W, H) := Canvas.getCanvasAndContentSize (fun _ => None) fl (qc 1000) (qc 800) in
  (qc 1000 * two <= W /\ qc 800 * two <= H /\
   f_x (last fl (flat (leaf 0))) + snd (Canvas.cardSize (fun _ => None) (f_id (last fl (flat (leaf 0)))))
     - f_x (hd (flat (leaf 0)) fl) + two * qc 200 <= W /\
   f_y (last fl (flat (leaf 0))) + fst (Canvas.cardSize (fun _ => None) (f_id (last fl (flat (leaf 0)))))
     - f_y (hd (flat (leaf 0)) fl) + two * qc 200 <= H)%Qc.
Proof.
  cbv zeta.
  assert (H1 : In (hd (flat (leaf 0)) (flatten sampleTree)) (flatten sampleTree))
    by (vm_compute; left; reflexivity).
  assert (H2 : In (last (flatten sampleTree) (flat (leaf 0))) (flatten sampleTree))
    by (vm_compute; right; right; right; right; left; reflexivity).
  split; [split; [exact H1|exact H2]|].
  exact (canvas_size_covers_cards (fun _ => None) (flatten sampleTree) (qc 1000) (qc 800)
           _ _ H1 H2).
Defined.

(** ** Card drag and send *)

Lemma drag_moves_keep : forall cx0 cy0 sc chatId moves s,
  Card.isDragging s = true ->
  let s' := drag_moves cx0 cy0 sc chatId moves s in
  Card.isDragging s' = true /\ Card.dragStartX s' = Card.dragStartX s /\
  Card.dragStartY s' = Card.dragStartY s.
Proof.
  intros cx0 cy0 sc chatId moves. unfold drag_moves.
  induction moves as [|[mx my] moves IH]; intros s Hs; simpl; [tauto|].
  set (s' := Card.mkDrag true (Card.dragStartX s) (Card.dragStartY s)
               ((mx - cx0) / sc - Card.dragStartX s)%Qc ((my - cy0) / sc - Card.dragStartY s)%Qc).
  assert (E : fst (Card.handleGlobalMouseMove cx0 cy0 sc mx my chatId s) = s')
    by (unfold Card.handleGlobalMouseMove; rewrite Hs; reflexivity).
  rewrite E. destruct (IH s' eq_refl) as [A [B C]].
  split; [exact A|]. rewrite B, C. split; reflexivity.
Qed.

(** While the canvas is neither panned nor zoomed, a card dragged by its
    header follows the mouse: after any moves, the position it reports to
    [onPositionChange] is its position at the press plus the distance the
    mouse went, divided by the zoom scale.  After the release, moves
    report nothing. *)
Theorem card_drag_follows_mouse : forall canvasX0 canvasY0 scale chatId s
    clientX0 clientY0 moves clientX clientY,
  let s1 := drag_moves canvasX0 canvasY0 scale chatId moves
              (Card.handleHeaderMouseDown canvasX0 canvasY0 scale clientX0 clientY0 s) in
  snd (Card.handleGlobalMouseMove canvasX0 canvasY0 scale clientX clientY chatId s1)
  = Some (chatId, (Card.boxX s + (clientX - clientX0) / scale)%Qc,
                  (Card.boxY s + (clientY - clientY0) / scale)%Qc) /\
  snd (Card.handleGlobalMouseMove canvasX0 canvasY0 scale clientX clientY chatId
         (Card.handleGlobalMouseUp s1)) = None.
Proof.
  intros cx0 cy0 sc chatId s clientX0 clientY0 moves clientX clientY. cbv zeta.
  destruct (drag_moves_keep cx0 cy0 sc chatId moves
              (Card.handleHeaderMouseDown cx0 cy0 sc clientX0 clientY0 s) eq_refl)
    as [A [B C]].
  split; [|reflexivity].
  unfold Card.handleGlobalMouseMove at 1. rewrite A, B, C. simpl.
  f_equal. f_equal; [f_equal|]; unfold Qcdiv; ring.
Qed.

Lemma trim_nil_of_nil : forall s, s = [] -> trim s = [].
Proof. intros s ->. reflexivity. Qed.

Lemma handleSend_sent : forall inputValue m,
  fst (Card.handleSend inputValue) = Some m -> m = inputValue /\ truthy_str m = true.
Proof.
  intros v m H. unfold Card.handleSend in H.
  destruct (truthy_str (trim v)) eqn:E; simpl in H; [|discriminate H].
  injection H as <-. split; [reflexivity|].
  destruct v; [discriminate E|reflexivity].
Qed.

Lemma get_member_app_absent : forall ms ms' name,
  ~ In name (map fst ms') -> get_member (ms ++ ms') name = get_member ms name.
Proof.
  intros ms ms' name H. unfold get_member. rewrite fold_left_app.
  generalize (fold_left (fun acc kv => if String.eqb (fst kv) name then JVal (snd kv) else acc)
                        ms JUndef).
  induction ms' as [|[k v] ms' IH]; intros acc; simpl; [reflexivity|].
  simpl in H. destruct (String.eqb_spec k name) as [E|E]; [tauto|]. apply IH. tauto.
Qed.

Lemma requestBody_read : forall t chatId message,
  read_body (Some (requestBody t chatId message))
  = inr (JVal (JStr message),
         opt_field (match findNode t chatId with
                    | Some n => option_map JStr (quotedText n)
                    | None => None
                    end),
         opt_field (option_map (fun p => JStr (transcript (conversation p)))
                               (findParent t chatId)),
         opt_field (option_map (fun n => JArr (map msg_json (conversation n)))
                               (findNode t chatId))).
Proof.
  intros t chatId message. unfold requestBody.
  destruct (findNode t chatId) as [n|]; [destruct (quotedText n)|];
    destruct (findParent t chatId); reflexivity.
Qed.

(** A message [handleSend] sends from a card passes the prompt check of
    [/api/chat] in both versions: when the model call succeeds, the
    answer is the 200 stream. *)
Theorem sent_message_is_answered : forall inputValue m t chatId contents parts,
  fst (Card.handleSend inputValue) = Some m ->
  Plain.POST (Some (requestBody t chatId m)) (inr contents)
  = mkResp 200 (RStream (List.concat (filter truthy_str contents))) /\
  Tool.POST (Some (requestBody t chatId m)) (inr parts)
  = mkResp 200 (RStream (Tool.streamBody parts)).
Proof.
  intros v m t chatId contents parts Hs.
  destruct (handleSend_sent v m Hs) as [_ Hm].
  pose proof (requestBody_read t chatId m) as Hb.
  split.
  - rewrite (plain_post_valid _ _ _ _ _ _ Hb) by exact Hm.
    destruct (findNode t chatId) as [c|]; [destruct (quotedText c)|];
      destruct (findParent t chatId); reflexivity.
  - rewrite (tool_post_valid _ _ _ _ _ _ Hb) by exact Hm.
    destruct (findNode t chatId) as [c|]; [destruct (quotedText c)|];
      destruct (findParent t chatId); reflexivity.
Qed.

Lemma sent_message_is_answered_witness :
  fst (Card.handleSend (js "hi")) = Some (js "hi") /\
  Plain.POST (Some (requestBody sampleTree 2 (js "hi"))) (inr [js "ok"])
  = mkResp 200 (RStream (List.concat (filter truthy_str [js "ok"]))) /\
  Tool.POST (Some (requestBody sampleTree 2 (js "hi"))) (inr [])
  = mkResp 200 (RStream (Tool.streamBody [])).
Proof.
  assert (H : fst (Card.handleSend (js "hi")) = Some (js "hi")) by reflexivity.
  split; [exact H|].
  exact (sent_message_is_answered (js "hi") (js "hi") sampleTree 2 [js "ok"] [] H).
Defined.

(** ** The [/api/assistant] route *)

Lemma jsval_eq_null : forall v : jsval, {v = JNull} + {v <> JNull}.
Proof. intros [| | | | |]; (left; reflexivity) || (right; discriminate). Qed.

Lemma assistant_catch_body : forall e,
  status (Assistant.catch e) = 500%Z /\
  exists msg, rbody (Assistant.catch e) = RJsonError msg /\ msg <> [].
Proof.
  intros [[m|]]; simpl; (split; [reflexivity|]).
  - destruct m as [|c m]; simpl; eexists; split; try reflexivity; discriminate.
  - eexists; split; [reflexivity|discriminate].
Qed.

Lemma assistant_valid_prompt : forall json nullError apiKey create,
  (forall v, json = inr v -> v <> JNull ->
     exists s, (match v with JObj ms => get_member ms "prompt" | _ => JUndef end)
               = JVal (JStr s) /\ s <> []) ->
  status (Assistant.POST json nullError apiKey create) <> 400%Z.
Proof.
  intros json nullError apiKey create H.
  destruct json as [e|v].
  - destruct e as [m]. simpl. discriminate.
  - destruct (jsval_eq_null v) as [->|Hn].
    + destruct nullError as [m]. simpl. discriminate.
    + destruct (H v eq_refl Hn) as [s [Hs Hne]].
      assert (E : Assistant.POST (inr v) nullError apiKey create
                  = Assistant.POST (inr (JObj [("prompt"%string, JStr s)])) nullError apiKey create).
      { destruct v; try (simpl in Hs; discriminate Hs).
        unfold Assistant.POST. rewrite Hs. reflexivity. }
      rewrite E. unfold Assistant.POST. simpl.
      destruct s as [|c s]; [congruence|]. simpl.
      destruct apiKey as [[|k ks]|]; simpl; try discriminate.
      destruct create as [[m]|ds]; simpl; discriminate.
Qed.

(** [/api/assistant] answers 400 exactly when the body was read, is not
    [null], and its [prompt] is not a non-empty string. *)
Theorem assistant_prompt_check : forall json nullError apiKey create,
  status (Assistant.POST json nullError apiKey create) = 400%Z <->
  (exists v, json = inr v /\ v <> JNull /\
     forall s, (match v with JObj ms => get_member ms "prompt" | _ => JUndef end)
               = JVal (JStr s) -> s = []).
Proof.
  intros json nullError apiKey create. split.
  - intros H400. destruct json as [e|v].
    + destruct e as [m]. discriminate H400.
    + exists v. destruct (jsval_eq_null v) as [->|Hn].
      { destruct nullError as [m]. discriminate H400. }
      split; [reflexivity|]. split; [exact Hn|]. intros s Hs.
      destruct s as [|c s]; [reflexivity|]. exfalso.
      apply (assistant_valid_prompt (inr v) nullError apiKey create); [|exact H400].
      intros v' E Hn'. injection E as <-. exists (c :: s). split; [exact Hs|discriminate].
  - intros [v [-> [Hn Hs]]].
    assert (Hp : forall pf, (forall s, pf = JVal (JStr s) -> s = []) ->
              status (match pf with
                      | JVal (JStr s) =>
                          if negb (truthy_str s)
                          then mkResp 400 (RJsonError (js "prompt is required"))
                          else if negb (match apiKey with Some k => truthy_str k | None => false end)
                          then mkResp 500 (RJsonError (js "missing PARALLEL_API_KEY"))
                          else match create with
                               | inl e => Assistant.catch e
                               | inr deltas =>
                                   mkResp 200 (RStream (List.concat
                                     (map (fun d => match d with Some text => text | None => [] end)
                                          deltas)))
                               end
                      | _ => mkResp 400 (RJsonError (js "prompt is required"))
                      end) = 400%Z).
    { intros [|[| | | s | |]] H; try reflexivity. rewrite (H s eq_refl). reflexivity. }
    destruct v as [|b|q|s0|l|ms]; try (apply (Hp JUndef); intros s E; discriminate E).
    + congruence.
    + apply (Hp (get_member ms "prompt")). exact Hs.
Qed.

(** Every answer of [/api/assistant] is a 200 stream, the 400 for a bad
    prompt, or a 500 whose JSON error message is never empty. *)
Theorem assistant_responses : forall json nullError apiKey create,
  let r := Assistant.POST json nullError apiKey create in
  (status r = 200%Z /\ exists body, rbody r = RStream body) \/
  (status r = 400%Z /\ rbody r = RJsonError (js "prompt is required")) \/
  (status r = 500%Z /\ exists msg, rbody r = RJsonError msg /\ msg <> []).
Proof.
  intros json nullError apiKey create. cbv zeta.
  assert (Hc : forall e, status (Assistant.catch e) = 500%Z /\
                 exists msg, rbody (Assistant.catch e) = RJsonError msg /\ msg <> [])
    by exact assistant_catch_body.
  unfold Assistant.POST.
  destruct json as [e|v]; [right; right; apply Hc|].
  assert (Hpf : forall pf,
    let r := match pf with
             | JVal (JStr s) =>
                 if negb (truthy_str s)
                 then mkResp 400 (RJsonError (js "prompt is required"))
                 else if negb (match apiKey with Some k => truthy_str k | None => false end)
                 then mkResp 500 (RJsonError (js "missing PARALLEL_API_KEY"))
                 else match create with
                      | inl e => Assistant.catch e
                      | inr deltas =>
                          mkResp 200 (RStream (List.concat
                            (map (fun d => match d with Some text => text | None => [] end)
                                 deltas)))
                      end
             | _ => mkResp 400 (RJsonError (js "prompt is required"))
             end in
    (status r = 200%Z /\ exists body, rbody r = RStream body) \/
    (status r = 400%Z /\ rbody r = RJsonError (js "prompt is required")) \/
    (status r = 500%Z /\ exists msg, rbody r = RJsonError msg /\ msg <> [])).
  { intros pf. cbv zeta.
    destruct pf as [|[| | | s | |]]; try (right; left; split; reflexivity).
    destruct (truthy_str s); [|right; left; split; reflexivity]. simpl.
    destruct (match apiKey with Some k => truthy_str k | None => false end); simpl.
    - destruct create as [e|ds]; [right; right; apply Hc|left; split; [reflexivity|eexists; reflexivity]].
    - right; right. split; [reflexivity|]. eexists. split; [reflexivity|discriminate]. }
  destruct v; try apply (Hpf JUndef); [right; right; apply Hc|apply Hpf].
Qed.

(** With a non-empty string prompt, a missing or empty
    [PARALLEL_API_KEY] gives the 500 [missing PARALLEL_API_KEY] answer,
    whatever the model call would have done. *)
Theorem assistant_missing_key : forall ms s nullError apiKey create,
  get_member ms "prompt" = JVal (JStr s) -> s <> [] ->
  match apiKey with Some k => k = [] | None => True end ->
  Assistant.POST (inr (JObj ms)) nullError apiKey create
  = mkResp 500 (RJsonError (js "missing PARALLEL_API_KEY")).
Proof.
  intros ms s nullError apiKey create Hp Hs Hk. unfold Assistant.POST. rewrite Hp.
  destruct s as [|c s]; [congruence|]. simpl.
  destruct apiKey as [k|]; [subst k|]; reflexivity.
Qed.

Lemma assistant_missing_key_witness :
  (get_member [("prompt"%string, JStr (js "hi"))] "prompt" = JVal (JStr (js "hi")) /\
   js "hi" <> [] /\ True) /\
  Assistant.POST (inr (JObj [("prompt"%string, JStr (js "hi"))])) (Assistant.AExn None) None (inr [])
  = mkResp 500 (RJsonError (js "missing PARALLEL_API_KEY")).
Proof.
  assert (H1 : get_member [("prompt"%string, JStr (js "hi"))] "prompt" = JVal (JStr (js "hi")))
    by reflexivity.
  assert (H2 : js "hi" <> []) by discriminate.
  split; [split; [exact H1|split; [exact H2|exact I]]|].
  exact (assistant_missing_key _ (js "hi") (Assistant.AExn None) None (inr []) H1 H2 I).
Defined.

(** ** Status digits of the search tool *)

Lemma dec_fold : forall l a,
  fold_left (fun acc d => acc * 10 + (d - 48)) l a = a * 10 ^ N.of_nat (List.length l) + dec_value l.
Proof.
  induction l as [|d l IH]; intros a.
  - unfold dec_value. simpl. lia.
  - cbn [fold_left List.length]. unfold dec_value at 1. cbn [fold_left].
    rewrite (IH (a * 10 + (d - 48))), (IH (0 * 10 + (d - 48))).
    rewrite Nat2N.inj_succ, N.pow_succ_r'. lia.
Qed.

Lemma dec_go_value : forall fuel n acc, n < 10 ^ N.of_nat fuel ->
  dec_value (Tool.dec_go fuel n acc) = n * 10 ^ N.of_nat (List.length acc) + dec_value acc /\
  (Forall (fun d => 48 <= d <= 57) acc ->
   Forall (fun d => 48 <= d <= 57) (Tool.dec_go fuel n acc)).
Proof.
  induction fuel as [|f IH]; intros n acc Hn.
  - simpl in Hn. simpl. split; [|tauto]. assert (n = 0) by lia. subst. lia.
  - cbn [Tool.dec_go]. pose proof (N.mod_lt n 10 ltac:(lia)) as Hm.
    assert (Hd : dec_value ((48 + n mod 10) :: acc)
                 = n mod 10 * 10 ^ N.of_nat (List.length acc) + dec_value acc).
    { unfold dec_value at 1. cbn [fold_left]. rewrite dec_fold.
      rewrite N.mul_0_l, N.add_0_l, (N.add_comm 48), N.add_sub. reflexivity. }
    destruct (n <? 10) eqn:E.
    + apply N.ltb_lt in E. rewrite Hd, N.mod_small by exact E.
      split; [reflexivity|]. intros Ha. constructor; [lia|exact Ha].
    + apply N.ltb_ge in E.
      rewrite Nat2N.inj_succ, N.pow_succ_r' in Hn.
      assert (Hq : n / 10 < 10 ^ N.of_nat f) by (apply N.Div0.div_lt_upper_bound; lia).
      destruct (IH (n / 10) ((48 + n mod 10) :: acc) Hq) as [IH1 IH2].
      split.
      * rewrite IH1, Hd. simpl List.length. rewrite Nat2N.inj_succ, N.pow_succ_r'.
        rewrite (N.div_mod n 10) at 3 by lia. ring.
      * intros Ha. apply IH2. constructor; [|exact Ha].
        revert Hm. generalize (n mod 10). intros m Hm. lia.
Qed.

Lemma pos_size_nat_bound : forall p, N.pos p < 2 ^ N.of_nat (Pos.size_nat p).
Proof.
  induction p as [p IH|p IH|]; simpl Pos.size_nat; rewrite ?Nat2N.inj_succ, ?N.pow_succ_r'.
  - change (N.pos p~1) with (2 * N.pos p + 1). lia.
  - change (N.pos p~0) with (2 * N.pos p). lia.
  - simpl. lia.
Qed.

Lemma show_status_digits : forall n,
  dec_value (Tool.show_status n) = n /\
  Forall (fun d => 48 <= d <= 57) (Tool.show_status n).
Proof.
  intros n. unfold Tool.show_status.
  assert (Hb : n < 10 ^ N.of_nat (S (N.size_nat n))).
  { destruct n as [|p].
    - simpl. lia.
    - simpl N.size_nat. pose proof (pos_size_nat_bound p) as Hp.
      assert (H2 : 2 ^ N.of_nat (Pos.size_nat p) <= 10 ^ N.of_nat (Pos.size_nat p))
        by (apply N.pow_le_mono_l; lia).
      rewrite Nat2N.inj_succ, N.pow_succ_r'.
      assert (H0 : 0 < 10 ^ N.of_nat (Pos.size_nat p)) by (apply N.neq_0_lt_0, N.pow_nonzero; lia).
      lia. }
  destruct (dec_go_value _ n [] Hb) as [H1 H2]. split.
  - rewrite H1. unfold dec_value. simpl. lia.
  - apply H2. constructor.
Qed.

(** The search tool reports a failed search with the message
    ["parallel error "] followed by the decimal digits of the HTTP status:
    with a truthy [PARALLEL_API_KEY], the error text is that prefix
    followed by ASCII digits whose decimal value is the status. *)
Theorem search_error_reports_status : forall k st,
  truthy_str k = true ->
  exists digits,
    Tool.search_execute (Some k) (Tool.FetchNotOk st)
      = Tool.ToolError (js "parallel error " ++ digits) /\
    Forall (fun d => 48 <= d <= 57) digits /\ dec_value digits = st.
Proof.
  intros k st Hk. exists (Tool.show_status st).
  destruct (show_status_digits st) as [H1 H2].
  unfold Tool.search_execute. rewrite Hk. auto.
Qed.

Lemma search_error_reports_status_witness :
  truthy_str (js "key") = true /\
  exists digits,
    Tool.search_execute (Some (js "key")) (Tool.FetchNotOk 404)
      = Tool.ToolError (js "parallel error " ++ digits) /\
    Forall (fun d => 48 <= d <= 57) digits /\ dec_value digits = 404.
Proof.
  split; [reflexivity|].
  apply (search_error_reports_status (js "key") 404). reflexivity.
Defined.
